(** * PortsmouthRaceCalc: the conformance harness of [__main__.py]

    A shallow embedding of [main_check] and [check_series_with_file]
    (with its five nested check functions), and the properties of the
    harness stated in the specification.

    Conventions of the embedding.
    - Python is CPython 3 on a 64-bit platform, with the decimal module in
      its default context: 28 significant digits, rounding half to even.
    - A finite [Decimal] is modelled by the rational number it denotes ([Q],
      compared with [Qeq_bool]); the results of [Decimal(...)] also include
      the infinities and the quiet and signalling NaN. Arithmetic rounds to
      the precision of the context ([round_prec]).
    - A Python [str] is a [string] read as a sequence of code points below
      256; the text decoded from the subprocess's standard error is a list
      of code points.
    - A value loaded from the reference dump by [yaml.safe_load] is an
      [atom]: an integer, a float (a finite one by its exact value, as
      [Decimal(float)] converts it), a string or null.
    - Python exceptions are results: a function that can raise returns an
      [outcome]. Printing is taken to succeed.
    - The scoring kernel ([Series], [Race], [Skipper]) is not part of the
      harness; its accessors are the fields of the records below, and the
      points it reports are finite. *)

From Stdlib Require Import QArith Qabs Qround Lqa Ascii String.
From stdpp Require Import gmap strings list fin_maps pretty sorting.

Local Open Scope Z_scope.

(** ** Python values *)

Inductive atom : Type :=
  | AInt (z : Z)
  | AFloat (q : Q)
  | AFloatInf (neg : bool)
  | AFloatNaN
  | ADec (q : Q)
  | ADecNaN
  | AStr (s : string)
  | ANone.

Inductive value : Type :=
  | VAtom (a : atom)
  | VList (l : list atom).

Inductive exn : Type :=
  | KeyError
  | IndexError
  | TypeError
  | InvalidOperation
  | UnicodeDecodeError
  | OSError
  | YAMLError.

Inductive outcome (A : Type) : Type :=
  | Ok (a : A)
  | Raise (e : exn).
Arguments Ok {A} a.
Arguments Raise {A} e.

Global Instance outcome_ret : MRet outcome := fun A a => Ok a.
Global Instance outcome_bind : MBind outcome := fun A B f m =>
  match m with
  | Ok a => f a
  | Raise e => Raise e
  end.
Global Instance outcome_fmap : FMap outcome := fun A B f m =>
  match m with
  | Ok a => Ok (f a)
  | Raise e => Raise e
  end.

(** [isinstance(sp, str)] *)
Definition is_str (a : atom) : bool :=
  match a with
  | AStr _ => true
  | _ => false
  end.

(** The number a finite numeric value denotes; [None] for the infinities,
    the NaNs, strings and null. *)
Definition atom_num (a : atom) : option Q :=
  match a with
  | AInt z => Some (inject_Z z)
  | AFloat q => Some q
  | ADec q => Some q
  | AFloatInf _ | AFloatNaN | ADecNaN | AStr _ | ANone => None
  end.

(** Python's [==]: finite numbers of any numeric type compare by value, an
    infinite float equals the infinite float of its sign, a NaN equals
    nothing; strings compare with strings, [None] with [None]; values of
    unrelated types differ. *)
Definition py_eq (a b : atom) : bool :=
  match a, b with
  | AStr s, AStr t => String.eqb s t
  | ANone, ANone => true
  | AFloatInf s, AFloatInf t => Bool.eqb s t
  | _, _ =>
      match atom_num a, atom_num b with
      | Some x, Some y => Qeq_bool x y
      | _, _ => false
      end
  end.

Definition py_ne (a b : atom) : bool := negb (py_eq a b).

(** ** Text *)

(** The code points of a [str]. *)
Definition codes (s : string) : list N :=
  N_of_ascii <$> list_ascii_of_string s.

(** The characters [str.strip()] removes and [Decimal(str)] ignores at both
    ends: those for which [str.isspace()] holds. *)
Definition is_space (c : N) : bool :=
  (((9 <=? c) && (c <=? 13)) || ((28 <=? c) && (c <=? 32))
   || (c =? 133) || (c =? 160) || (c =? 5760)
   || ((8192 <=? c) && (c <=? 8202))
   || (c =? 8232) || (c =? 8233) || (c =? 8239) || (c =? 8287)
   || (c =? 12288))%N.

Fixpoint lstrip (l : list N) : list N :=
  match l with
  | c :: l' => if is_space c then lstrip l' else l
  | [] => []
  end.

(** [str.strip()] *)
Definition strip (l : list N) : list N := rev (lstrip (rev (lstrip l))).

(** The line boundaries of [str.splitlines()]. *)
Definition is_linebreak (c : N) : bool :=
  (((10 <=? c) && (c <=? 13)) || ((28 <=? c) && (c <=? 30))
   || (c =? 133) || (c =? 8232) || (c =? 8233))%N.

(** [str.splitlines()]: the lines without their boundaries; a carriage
    return followed by a line feed is one boundary, and a boundary at the
    end of the text does not open a last, empty line. [cur] is the line
    being read, in reverse. *)
Fixpoint splitlines_from (cur : list N) (l : list N) : list (list N) :=
  match l with
  | [] =>
      match cur with
      | [] => []
      | _ => [rev cur]
      end
  | c :: l' =>
      if (c =? 13)%N then
        match l' with
        | c' :: l'' =>
            if (c' =? 10)%N then rev cur :: splitlines_from [] l''
            else rev cur :: splitlines_from [] l'
        | [] => rev cur :: splitlines_from [] l'
        end
      else if is_linebreak c then rev cur :: splitlines_from [] l'
      else splitlines_from (c :: cur) l'
  end.

Definition splitlines (l : list N) : list (list N) := splitlines_from [] l.

(** A continuation byte of UTF-8, between [lo] and [hi]. *)
Definition between (lo hi b : N) : bool := ((lo <=? b) && (b <=? hi))%N.

(** [bytes.decode("utf-8")]: the strict decoder, which accepts the
    well-formed sequences only (shortest form, no surrogates, nothing above
    U+10FFFF). *)
Fixpoint decode (l : list N) : outcome (list N) :=
  match l with
  | [] => Ok []
  | b0 :: l1 =>
      if (b0 <=? 127)%N then cons b0 <$> decode l1
      else if between 194 223 b0 then
        match l1 with
        | b1 :: l2 =>
            if between 128 191 b1
            then cons ((b0 - 192) * 64 + (b1 - 128))%N <$> decode l2
            else Raise UnicodeDecodeError
        | _ => Raise UnicodeDecodeError
        end
      else if between 224 239 b0 then
        match l1 with
        | b1 :: b2 :: l3 =>
            if between (if (b0 =? 224)%N then 160 else 128)
                       (if (b0 =? 237)%N then 159 else 191) b1
               && between 128 191 b2
            then cons ((b0 - 224) * 4096 + (b1 - 128) * 64 + (b2 - 128))%N
                   <$> decode l3
            else Raise UnicodeDecodeError
        | _ => Raise UnicodeDecodeError
        end
      else if between 240 244 b0 then
        match l1 with
        | b1 :: b2 :: b3 :: l4 =>
            if between (if (b0 =? 240)%N then 144 else 128)
                       (if (b0 =? 244)%N then 143 else 191) b1
               && between 128 191 b2 && between 128 191 b3
            then cons ((b0 - 240) * 262144 + (b1 - 128) * 4096
                       + (b2 - 128) * 64 + (b3 - 128))%N
                   <$> decode l4
            else Raise UnicodeDecodeError
        | _ => Raise UnicodeDecodeError
        end
      else Raise UnicodeDecodeError
  end.

(** The bytes of a [bytes] object are the characters of a [string]. *)
Definition decode_utf8 (b : string) : outcome (list N) := decode (codes b).

(** ** Decimals *)

(** A [Decimal]: a finite number, an infinity, or a NaN (quiet or
    signalling). *)
Inductive dec : Type :=
  | DFin (q : Q)
  | DInf (neg : bool)
  | DNaN (signal : bool).

(** What [round(d, 1)] returns: a finite number or the quiet NaN. *)
Inductive rdec : Type :=
  | RFin (q : Q)
  | RNaN.

Definition rdec_atom (r : rdec) : atom :=
  match r with
  | RFin q => ADec q
  | RNaN => ADecNaN
  end.

(** [10 ** e] *)
Definition pow10 (e : Z) : Q :=
  if 0 <=? e then inject_Z (10 ^ e) else Qmake 1 (Z.to_pos (10 ^ (- e))).

Module DecimalLit.

(** The exponent limits of the conversion from a string. *)
Definition emax : Z := 999999999999999999.
Definition etiny : Z := -1999999999999999997.

Definition is_digit (c : N) : bool := ((48 <=? c) && (c <=? 57))%N.

Definition digit_val (c : N) : Z := Z.of_N c - 48.

Definition digits_val (l : list N) : Z :=
  fold_left (fun acc c => 10 * acc + digit_val c) l 0.

Fixpoint span_digits (l : list N) : list N * list N :=
  match l with
  | c :: l' =>
      if is_digit c
      then let '(d, r) := span_digits l' in (c :: d, r)
      else ([], l)
  | [] => ([], [])
  end.

Definition take_sign (l : list N) : bool * list N :=
  match l with
  | c :: l' =>
      if (c =? 45)%N then (true, l')
      else if (c =? 43)%N then (false, l')
      else (false, l)
  | [] => (false, l)
  end.

(** The lower-case form of an ASCII letter. *)
Definition lower (c : N) : N :=
  if ((65 <=? c) && (c <=? 90))%N then (c + 32)%N else c.

(** The exponent part: nothing, or [E] with a signed, non-empty run of
    digits up to the end of the string. *)
Definition exponent (l : list N) : option Z :=
  match l with
  | [] => Some 0
  | c :: l' =>
      if (lower c =? 101)%N then
        let '(neg, l'') := take_sign l' in
        match span_digits l'' with
        | ((_ :: _) as d, []) =>
            Some (if neg then - digits_val d else digits_val d)
        | _ => None
        end
      else None
  end.

(** The significant digits of a coefficient: at least one. *)
Fixpoint significant (l : list N) : list N :=
  match l with
  | c :: ((_ :: _) as l') => if (c =? 48)%N then significant l' else l
  | _ => l
  end.

Definition scale (c e : Z) : Q :=
  if 0 <=? e then inject_Z (c * 10 ^ e) else Qmake c (Z.to_pos (10 ^ (- e))).

(** [sign? (digits [. digits?] | . digits) (E sign? digits)?], within the
    exponent limits. *)
Definition number (neg : bool) (l : list N) : option dec :=
  let '(int, l) := span_digits l in
  let '(frac, l) :=
    match l with
    | c :: l' => if (c =? 46)%N then span_digits l' else ([], l)
    | [] => ([], l)
    end in
  match int ++ frac with
  | [] => None
  | ds =>
      e ← exponent l;
      let x := e - Z.of_nat (length frac) in
      if (x <? etiny) || (emax <? x + Z.of_nat (length (significant ds)) - 1)
      then None
      else
        let c := digits_val ds in
        Some (DFin (scale (if neg then - c else c) x))
  end.

(** [Inf], [Infinity], [NaN] and [sNaN] with optional digits, in any
    case. *)
Definition special (neg : bool) (l : list N) : option dec :=
  let l := lower <$> l in
  if bool_decide (l = codes "inf" ∨ l = codes "infinity") then Some (DInf neg)
  else
    let '(signal, l) :=
      match l with
      | c :: l' => if (c =? 115)%N then (true, l') else (false, l)
      | [] => (false, l)
      end in
    match l with
    | c1 :: c2 :: c3 :: l' =>
        if bool_decide ([c1; c2; c3] = codes "nan")
           && forallb is_digit l'
        then Some (DNaN signal)
        else None
    | _ => None
    end.

(** [Decimal(s)]: white space is stripped from both ends and underscores
    are removed before the string is read. *)
Definition parse (s : string) : option dec :=
  let l := filter (fun c => c ≠ 95%N) (strip (codes s)) in
  let '(neg, l) := take_sign l in
  match number neg l with
  | Some d => Some d
  | None => special neg l
  end.

End DecimalLit.

(** [Decimal(p)]: exact for integers and floats, read for strings
    ([decimal.InvalidOperation] for a string that is not a number),
    [TypeError] for [None]. *)
Definition Decimal (p : atom) : outcome dec :=
  match p with
  | AInt z => Ok (DFin (inject_Z z))
  | AFloat q => Ok (DFin q)
  | AFloatInf neg => Ok (DInf neg)
  | AFloatNaN => Ok (DNaN false)
  | ADec q => Ok (DFin q)
  | ADecNaN => Ok (DNaN false)
  | AStr s =>
      match DecimalLit.parse s with
      | Some d => Ok d
      | None => Raise InvalidOperation
      end
  | ANone => Raise TypeError
  end.

(** Rounding to the nearest integer, ties to even (the rounding of the
    decimal context). *)
Definition round_half_even (q : Q) : Z :=
  let n := Qnum q in
  let d := Z.pos (Qden q) in
  let f := n / d in
  let r := n mod d in
  match 2 * r ?= d with
  | Lt => f
  | Gt => f + 1
  | Eq => if Z.even f then f else f + 1
  end.

(** [round(d, 1)]: quantize to one decimal place.
    [decimal.InvalidOperation] when the result would have more than 28
    digits, for an infinity and for a signalling NaN; a quiet NaN is
    returned as it is. *)
Definition round1 (d : dec) : outcome rdec :=
  match d with
  | DFin q =>
      let z := round_half_even (q * 10) in
      if 10 ^ 28 <=? Z.abs z then Raise InvalidOperation
      else Ok (RFin (Qmake z 10))
  | DInf _ => Raise InvalidOperation
  | DNaN signal => if signal then Raise InvalidOperation else Ok RNaN
  end.

(** The position of the leading digit of a non-zero number: the greatest
    [e] with [10 ** e <= a], searched downwards from [e]. *)
Fixpoint adjusted_from (fuel : nat) (e : Z) (a : Q) : Z :=
  match fuel with
  | O => e
  | S fuel' => if Qle_bool (pow10 e) a then e else adjusted_from fuel' (e - 1) a
  end.

Definition adjusted (q : Q) : Z :=
  let n := Z.abs (Qnum q) in
  let d := Z.pos (Qden q) in
  adjusted_from (Z.to_nat (Z.log2 n + Z.log2 d + 3)) (Z.log2 n + 1) (Qabs q).

(** The rounding of the context: to 28 significant digits, half to even. *)
Definition round_prec (q : Q) : Q :=
  if Qeq_bool q 0 then 0%Q
  else
    let s := adjusted q - 27 in
    (inject_Z (round_half_even (q / pow10 s)) * pow10 s)%Q.

(** ** The kernel's query surface *)

Record Skipper : Type := { identifier : string }.

Global Instance Skipper_eq_dec : EqDecision Skipper.
Proof. solve_decision. Defined.

Global Instance Skipper_countable : Countable Skipper.
Proof. refine (inj_countable' identifier Build_Skipper _). by intros []. Defined.

Record Race : Type := {
  get_skipper_race_points : gmap Skipper Q;
  rc_skippers : gset Skipper
}.

(** The truthy result of [skipper_points_list]. *)
Record SeriesPoints : Type := { points_scored : list Q }.

(** [skipper_points_list] answers [None] for the falsy DNQ/na sentinel. *)
Record Series : Type := {
  name : string;
  races : list Race;
  get_all_skippers : list Skipper;
  skipper_points_list : Skipper → option SeriesPoints;
  get_skipper_rc_points : Skipper → option Q
}.

(** ** The reference dump: [perl_output["skip"][identifier]] *)

Record perl_skipper : Type := {
  finished_races : atom;
  low_n_list : list atom;
  race : gmap Z atom;
  rced_races : atom;
  rc_points : atom
}.

(** What a check returns for a mismatch: field name, kernel value,
    reference value. *)
Definition mismatch : Type := string * value * value.

Definition check : Type :=
  Series → Skipper → perl_skipper → outcome (option mismatch).

(** ** Helpers standing for Python built-ins *)

Definition len {A} (l : list A) : Z := Z.of_nat (length l).

(** [sum(l)] on the kernel's decimals: each addition, the first one to the
    integer 0 included, is rounded to the precision of the context. *)
Definition sum (l : list Q) : Q :=
  fold_left (fun acc x => round_prec (acc + x)) l 0%Q.

(** [sum(l)] on rounded reference values: a NaN makes the sum a NaN. *)
Definition sum_rounded (l : list rdec) : rdec :=
  fold_left (fun acc r =>
               match acc, r with
               | RFin a, RFin x => RFin (round_prec (a + x))
               | _, _ => RNaN
               end) l (RFin 0).

(** The sum of the ones of a counting comprehension. *)
Definition count_ones {A} (l : list A) : Z :=
  fold_left Z.add ((λ _, 1) <$> l) 0.

(** [sorted(l)]: a stable sort. *)
Fixpoint insert_sorted (x : Q) (l : list Q) : list Q :=
  match l with
  | [] => [x]
  | y :: l' => if Qle_bool x y then x :: l else y :: insert_sorted x l'
  end.

Definition sorted (l : list Q) : list Q := foldr insert_sorted [] l.

(** The finite values of a list without NaN. *)
Definition finite_values (l : list rdec) : option (list Q) :=
  mapM (λ r, match r with RFin q => Some q | RNaN => None end) l.

(** [sorted(l)] on rounded reference values: ordering a NaN raises
    [decimal.InvalidOperation], and every element of a list of two or more
    is ordered against another one. *)
Definition sorted_rounded (l : list rdec) : outcome (list rdec) :=
  match finite_values l with
  | Some qs => Ok (RFin <$> sorted qs)
  | None => if (2 <=? length l)%nat then Raise InvalidOperation else Ok l
  end.

(** [a != b] between a kernel decimal and a rounded reference value. *)
Definition differs (a : Q) (b : rdec) : bool :=
  match b with
  | RFin q => negb (Qeq_bool a q)
  | RNaN => true
  end.

(** The loop over [enumerate(zip(...))]: the first position where the two
    sides differ. *)
Fixpoint first_diff (i : nat) (l : list (Q * rdec)) :
    option (nat * Q * rdec) :=
  match l with
  | [] => None
  | (a, b) :: l' =>
      if differs a b then Some (i, a, b) else first_diff (S i) l'
  end.

Definition is_none (a : atom) : bool :=
  match a with
  | ANone => true
  | _ => false
  end.

(** ** The five checks of [check_series_with_file] *)

Definition check_finished_race_count : check := fun series skip perl =>
  let finished_race_count :=
    count_ones
      (filter (λ r, skip ∈ dom (get_skipper_race_points r)) (races series)) in
  if py_ne (AInt finished_race_count) (finished_races perl)
  then Ok (Some ("Count", VAtom (AInt finished_race_count),
                 VAtom (finished_races perl)))
  else Ok None.

Definition check_series_points : check := fun series skip perl =>
  let series_points_perl := low_n_list perl in
  match skipper_points_list series skip with
  | Some sp =>
      let series_points := points_scored sp in
      if existsb is_str series_points_perl
      then Ok (Some ("Number/String", VList (ADec <$> series_points),
                     VList series_points_perl))
      else
        series_points_perl ←
          mapM (λ p, Decimal p ≫= round1) series_points_perl;
        if negb (len series_points =? len series_points_perl)
        then Ok (Some ("Point Count", VAtom (AInt (len series_points)),
                       VAtom (AInt (len series_points_perl))))
        else
          sorted_perl ← sorted_rounded series_points_perl;
          match first_diff 0 (zip (sorted series_points) sorted_perl) with
          | Some (i, a, b) =>
              Ok (Some ("Point[" +:+ pretty i +:+ "]",
                        VAtom (ADec a), VAtom (rdec_atom b)))
          | None =>
              if differs (sum series_points) (sum_rounded series_points_perl)
              then Ok (Some ("Sum Count", VAtom (AInt (len series_points)),
                             VAtom (AInt (len series_points_perl))))
              else Ok None
          end
  | None =>
      if negb (len series_points_perl =? 1)
      then Ok (Some ("Array Length", VAtom (AInt 1), VList series_points_perl))
      else
        match series_points_perl !! 0%nat with
        | Some p =>
            if negb (py_eq p (AStr "na") || py_eq p (AStr "DNQ"))
            then Ok (Some ("Point String", VAtom (AStr "na/DNQ"), VAtom p))
            else Ok None
        | None => Raise IndexError
        end
  end.

(** The kernel's result of one race for a skipper, as the check formats it. *)
Definition race_pts (r : Race) (skip : Skipper) : atom :=
  match get_skipper_race_points r !! skip with
  | Some d => ADec d
  | None => if bool_decide (skip ∈ rc_skippers r) then AStr "RC" else ANone
  end.

(** The reference's result of the race at internal position [i]. *)
Definition race_pts_perl (perl : perl_skipper) (i : nat) : atom :=
  match race perl !! (Z.of_nat i + 1) with
  | Some v => v
  | None => ANone
  end.

Fixpoint race_loop (i : nat) (rs : list Race) (skip : Skipper)
    (perl : perl_skipper) : option mismatch :=
  match rs with
  | [] => None
  | r :: rs' =>
      let pts := race_pts r skip in
      let pts_perl := race_pts_perl perl i in
      if is_none pts && is_none pts_perl then race_loop (S i) rs' skip perl
      else if py_ne pts pts_perl
      then Some ("Race[" +:+ pretty (Z.of_nat i + 1) +:+ "]",
                 VAtom pts, VAtom pts_perl)
      else race_loop (S i) rs' skip perl
  end.

Definition check_race_results : check := fun series skip perl =>
  Ok (race_loop 0 (races series) skip perl).

Definition check_rc_race_count : check := fun series skip perl =>
  let rc_count :=
    count_ones (filter (λ r, skip ∈ rc_skippers r) (races series)) in
  let rc_count_perl := rced_races perl in
  if py_ne (AInt rc_count) rc_count_perl
  then Ok (Some ("RC Count", VAtom (AInt rc_count), VAtom rc_count_perl))
  else Ok None.

Definition check_rc_points : check := fun series skip perl =>
  let rc_pts_perl := rc_points perl in
  match get_skipper_rc_points series skip with
  | None =>
      if py_ne rc_pts_perl (AStr "na")
      then Ok (Some ("RC Points", VAtom (AStr "na"), VAtom rc_pts_perl))
      else Ok None
  | Some rc_pts =>
      rc_pts_perl ← Decimal rc_pts_perl ≫= round1;
      if differs rc_pts rc_pts_perl
      then Ok (Some ("RC Points", VAtom (ADec rc_pts),
                     VAtom (rdec_atom rc_pts_perl)))
      else Ok None
  end.

Definition check_functions : list check :=
  [ check_finished_race_count;
    check_series_points;
    check_race_results;
    check_rc_race_count;
    check_rc_points ].

(** ** [check_series_with_file] *)

(** The inner loop [for fcn in check_functions]: the first result that is
    not [None] ends it ([break]). *)
Fixpoint run_checks (fs : list check) (series : Series) (skip : Skipper)
    (perl_results : perl_skipper) : outcome (option mismatch) :=
  match fs with
  | [] => Ok None
  | fcn :: fs' =>
      res ← fcn series skip perl_results;
      match res with
      | Some m => Ok (Some m)
      | None => run_checks fs' series skip perl_results
      end
  end.

(** One entry of [error_outputs]: the skipper's identifier, the field name,
    the kernel value, the reference value. The rendering of the two values
    by the f-string is left out. *)
Record error_output : Type := {
  err_skipper : string;
  err_prm_name : string;
  err_py_val : value;
  err_perl_val : value
}.

Definition report (skip : Skipper) (m : mismatch) : error_output :=
  let '(prm_name, py_val, perl_val) := m in
  {| err_skipper := identifier skip; err_prm_name := prm_name;
     err_py_val := py_val; err_perl_val := perl_val |}.

(** The outer loop [for skip in series.get_all_skippers()]. *)
Fixpoint skipper_loop (fs : list check) (skips : list Skipper)
    (series : Series) (perl_output : gmap string perl_skipper)
    (error_outputs : list error_output) : outcome (list error_output) :=
  match skips with
  | [] => Ok error_outputs
  | skip :: skips' =>
      match perl_output !! identifier skip with
      | None => Raise KeyError
      | Some perl_results =>
          res ← run_checks fs series skip perl_results;
          skipper_loop fs skips' series perl_output
            match res with
            | Some m => error_outputs ++ [report skip m]
            | None => error_outputs
            end
      end
  end.

(** A printed line: a text, a text given by its code points, or the line
    of an error output. *)
Inductive line : Type :=
  | LText (s : string)
  | LCodes (l : list N)
  | LError (e : error_output).

Definition check_series_with_file (series : Series)
    (perl_output : gmap string perl_skipper) : outcome (bool * list line) :=
  error_outputs ←
    skipper_loop check_functions (get_all_skippers series) series perl_output [];
  match error_outputs with
  | [] => Ok (true, [])
  | _ => Ok (false, LText ("Series " +:+ name series) :: (LError <$> error_outputs))
  end.

(** ** [main_check] *)

(** What happens around the reference subprocess of one series: the
    exception, if any, raised while the check directory and the two input
    files are written and the subprocess is run (lines 192 to 211); the
    return code of the subprocess; the bytes of its standard error; and
    what opening and loading [dumper.yaml] gives, the [skip] mapping of the
    dump or an exception. *)
Record perl_run : Type := {
  setup : option exn;
  returncode : Z;
  stderr : string;
  dumper : outcome (gmap string perl_skipper)
}.

Inductive event : Type :=
  | Stdout (l : line)
  | Stderr (l : line).

(** One turn of the loop over [database.series.items()]: what it prints,
    and the [success] it ends with or the exception that leaves it. *)
Definition turn (s : Series) (proc : perl_run) : list event * outcome bool :=
  match setup proc with
  | Some e => ([], Raise e)
  | None =>
      if negb (returncode proc =? 0) then
        let header := Stderr (LText (name s +:+ " Process Error!")) in
        match decode_utf8 (stderr proc) with
        | Raise e => ([header], Raise e)
        | Ok text =>
            (header :: ((λ l, Stderr (LCodes (codes "    " ++ strip l)))
                          <$> splitlines text),
             Ok false)
        end
      else
        match dumper proc with
        | Raise e => ([], Raise e)
        | Ok dump_output =>
            match check_series_with_file s dump_output with
            | Raise e => ([], Raise e)
            | Ok (success, printed) =>
                ((Stdout <$> printed)
                   ++ (if success then []
                       else [Stderr (LText (name s +:+ " Check Error :-("))]),
                 Ok success)
            end
        end
  end.

(** The loop, threading [overall_success] and what has been printed so
    far. An exception leaves the loop at once. *)
Fixpoint main_loop (db : list (Series * perl_run)) (overall_success : bool)
    (out : list event) : list event * outcome bool :=
  match db with
  | [] => (out, Ok overall_success)
  | (s, proc) :: db' =>
      let '(printed, res) := turn s proc in
      match res with
      | Raise e => (out ++ printed, Raise e)
      | Ok success =>
          main_loop db' (if success then overall_success else false)
            (out ++ printed)
      end
  end.

(** How the run ends: [main_check] returns (exit status 0), calls
    [sys.exit], or an exception reaches the top level (exit status 1). *)
Inductive ending : Type :=
  | Returned
  | SysExit (code : Z)
  | Uncaught (e : exn).

Record run : Type := { events : list event; how : ending }.

(** [mkdir] is the exception, if any, raised when the base directory of
    the checks is missing and cannot be created (lines 186 and 187). *)
Definition main_check (mkdir : option exn) (db : list (Series * perl_run)) :
    run :=
  match mkdir with
  | Some e => {| events := []; how := Uncaught e |}
  | None =>
      match main_loop db true [] with
      | (out, Raise e) => {| events := out; how := Uncaught e |}
      | (out, Ok true) =>
          {| events := out ++ [Stdout (LText "All Pass!")]; how := Returned |}
      | (out, Ok false) => {| events := out; how := SysExit 1 |}
      end
  end.

Definition exit_status (r : run) : Z :=
  match how r with
  | Returned => 0
  | SysExit code => code
  | Uncaught _ => 1
  end.

(** ** Notions used to state the properties *)

(** The kernel and the reference agree on the race at internal position
    [i]: both have nothing for the skipper, or their values are equal. *)
Definition race_agrees (r : Race) (skip : Skipper) (perl : perl_skipper)
    (i : nat) : Prop :=
  (get_skipper_race_points r !! skip = None ∧ (skip ∉ rc_skippers r)
   ∧ race perl !! (Z.of_nat i + 1) = None)
  ∨ py_eq (race_pts r skip) (default ANone (race perl !! (Z.of_nat i + 1)))
    = true.

(** The label of the race at internal position [i]. *)
Definition race_label (i : nat) : string :=
  "Race[" +:+ pretty (Z.of_nat i + 1) +:+ "]".

(** The first result that is not a pass: [next] counts only when [first]
    passes. *)
Definition and_then (first next : outcome (option mismatch)) :
    outcome (option mismatch) :=
  match first with
  | Ok None => next
  | _ => first
  end.

(** The five checks of one skipper in their fixed order, up to the first
    mismatch. *)
Definition first_mismatch (series : Series) (skip : Skipper)
    (perl : perl_skipper) : outcome (option mismatch) :=
  and_then (check_finished_race_count series skip perl)
  (and_then (check_series_points series skip perl)
  (and_then (check_race_results series skip perl)
  (and_then (check_rc_race_count series skip perl)
            (check_rc_points series skip perl)))).

(** What one skipper adds to the error outputs: nothing or one record. *)
Definition skipper_report (series : Series)
    (perl_output : gmap string perl_skipper) (skip : Skipper) :
    outcome (option error_output) :=
  match perl_output !! identifier skip with
  | None => Raise KeyError
  | Some perl =>
      (λ res : option mismatch, report skip <$> res)
        <$> first_mismatch series skip perl
  end.

(** A series passes: its reference subprocess is run and succeeds, its
    dump is loaded and [check_series_with_file] returns true (having
    printed nothing). *)
Definition series_passes (sp : Series * perl_run) : Prop :=
  setup sp.2 = None
  ∧ returncode sp.2 = 0
  ∧ ∃ dump, dumper sp.2 = Ok dump
      ∧ check_series_with_file sp.1 dump = Ok (true, []).

(** The turn of the loop for a series ends without an exception: the
    subprocess is run, and either it fails and its standard error is
    decoded, or it succeeds, its dump is loaded and the check returns. *)
Definition series_completes (sp : Series * perl_run) : Prop :=
  setup sp.2 = None
  ∧ (returncode sp.2 ≠ 0 ∧ (∃ text, decode_utf8 (stderr sp.2) = Ok text)
     ∨ returncode sp.2 = 0
       ∧ ∃ dump r, dumper sp.2 = Ok dump
           ∧ check_series_with_file sp.1 dump = Ok r).


(** Everything the turn of a series prints. *)
Definition series_events (sp : Series * perl_run) : list event :=
  (turn sp.1 sp.2).1.

(** The exit behaviour of [main_check] as the specification words it, the
    base directory being there: status 0 exactly when every series passes;
    otherwise [sys.exit(1)], after the whole loop, with the lines of every
    series printed. *)
Definition exit_as_specified (db : list (Series * perl_run)) : Prop :=
  (exit_status (main_check None db) = 0 ↔ Forall series_passes db)
  ∧ (¬ Forall series_passes db →
     how (main_check None db) = SysExit 1
     ∧ events (main_check None db) = concat (series_events <$> db)).


(** Rounding before comparison, for the per-race values: a reference value
    whose rounding to one decimal equals the kernel's points would pass. *)
Definition race_points_rounded_first : Prop :=
  ∀ (r : Race) (skip : Skipper) (perl : perl_skipper) (d q : Q) (v : atom)
    (x : dec),
    get_skipper_race_points r !! skip = Some d →
    race perl !! 1 = Some v →
    Decimal v = Ok x →
    round1 x = Ok (RFin q) →
    Qeq_bool d q = true →
    race_loop 0 [r] skip perl = None.

(** The series-points check never reports [Sum Count]. *)
Definition sum_count_never_returned : Prop :=
  ∀ (series : Series) (skip : Skipper) (perl : perl_skipper) (a b : value),
    check_series_points series skip perl ≠ Ok (Some ("Sum Count", a, b)).

(** The sum of the absolute values of a list of points. *)
Definition abs_total (l : list Q) : Q := foldr (λ x s, Qabs x + s)%Q 0%Q l.

(** A whole number of tenths. *)
Definition is_tenth (q : Q) : Prop := ∃ c : Z, (q == Qmake c 10)%Q.

(** [z] is the integer nearest to the fraction [n / d], the even one of
    the two when the fraction lies half way. *)
Definition nearest_even (n d z : Z) : Prop :=
  2 * Z.abs (z * d - n) ≤ d
  ∧ (2 * Z.abs (z * d - n) = d → Z.even z = true).

(** The exact sum of a list of points. *)
Definition total (l : list Q) : Q := foldr Qplus 0%Q l.

(** A decimal that [round(d, 1)] refuses: an infinity, a signalling NaN, or
    a finite value whose rounding has more than 28 digits. *)
Definition unroundable (d : dec) : Prop :=
  match d with
  | DFin q => 10 ^ 28 ≤ Z.abs (round_half_even (q * 10))
  | DInf _ => True
  | DNaN signal => signal = true
  end.

(** The element of a list at which a conversion fails first. *)
Definition fails_first {A B} (f : A → outcome B) (l : list A) (e : exn) : Prop :=
  ∃ pre p post, l = pre ++ p :: post
    ∧ Forall (λ x, ∃ r, f x = Ok r) pre
    ∧ f p = Raise e.

(** ** Sample data *)

Module Sample.

Definition alice : Skipper := {| identifier := "alice" |}.
Definition bob : Skipper := {| identifier := "bob" |}.

(** Race 1: alice finishes first, bob serves as race committee. *)
Definition race1 : Race :=
  {| get_skipper_race_points := {[ alice := 1%Q ]};
     rc_skippers := {[ bob ]} |}.

(** Race 2: bob first, alice with 2.5 points. *)
Definition race2 : Race :=
  {| get_skipper_race_points := {[ alice := (5 # 2)%Q; bob := 1%Q ]};
     rc_skippers := ∅ |}.

Definition alice_points : SeriesPoints :=
  {| points_scored := [1%Q; (5 # 2)%Q] |}.

(** alice qualifies with both races counted, bob does not qualify and has
    1.0 as race-committee points. *)
Definition spring : Series :=
  {| name := "spring";
     races := [race1; race2];
     get_all_skippers := [alice; bob];
     skipper_points_list := λ k,
       if decide (k = alice) then Some alice_points else None;
     get_skipper_rc_points := λ k,
       if decide (k = bob) then Some 1%Q else None |}.

Definition perl_alice : perl_skipper :=
  {| finished_races := AInt 2;
     low_n_list := [AFloat (5 # 2); AInt 1];
     race := {[ 1 := AInt 1; 2 := AFloat (5 # 2) ]};
     rced_races := AInt 0;
     rc_points := AStr "na" |}.

Definition perl_bob : perl_skipper :=
  {| finished_races := AInt 1;
     low_n_list := [AStr "DNQ"];
     race := {[ 1 := AStr "RC"; 2 := AInt 1 ]};
     rced_races := AInt 1;
     rc_points := AStr "1.04" |}.

Definition dump : gmap string perl_skipper :=
  {[ "alice" := perl_alice; "bob" := perl_bob ]}.

(** The reference has no race-committee points for bob, the kernel has. *)
Definition perl_bob_na : perl_skipper :=
  {| finished_races := AInt 1;
     low_n_list := [AStr "DNQ"];
     race := {[ 1 := AStr "RC"; 2 := AInt 1 ]};
     rced_races := AInt 1;
     rc_points := AStr "na" |}.

(** Two disagreements for bob: the finished count, and race-committee
    points the reference does not have. *)
Definition perl_bob_bad : perl_skipper :=
  {| finished_races := AInt 5;
     low_n_list := [AStr "DNQ"];
     race := {[ 1 := AStr "RC"; 2 := AInt 1 ]};
     rced_races := AInt 1;
     rc_points := AStr "na" |}.

Definition dump_bad : gmap string perl_skipper :=
  {[ "alice" := perl_alice; "bob" := perl_bob_bad ]}.

(** A race whose data has alice both with points and on the committee. *)
Definition race_both : Race :=
  {| get_skipper_race_points := {[ alice := 2%Q ]};
     rc_skippers := {[ alice ]} |}.

Definition dump_na : gmap string perl_skipper :=
  {[ "alice" := perl_alice; "bob" := perl_bob_na ]}.

(** A run whose subprocess succeeds and leaves the dump [d]. *)
Definition loaded (d : gmap string perl_skipper) : perl_run :=
  {| setup := None; returncode := 0; stderr := ""; dumper := Ok d |}.

Definition ok_run : perl_run := loaded dump.

(** A run whose subprocess fails with one line on its standard error and
    leaves no dump. *)
Definition crashed_run : perl_run :=
  {| setup := None; returncode := 2; stderr := "  no such file ";
     dumper := Raise OSError |}.

(** A run whose subprocess fails and writes the byte 255, which is not
    UTF-8, on its standard error. *)
Definition garbled_run : perl_run :=
  {| setup := None; returncode := 2;
     stderr := string_of_list_ascii [ascii_of_N 255];
     dumper := Raise OSError |}.

(** The reference has the float 1.03125 for alice in race 1, where the
    kernel has 1.0. *)
Definition perl_alice_fine : perl_skipper :=
  {| finished_races := AInt 2;
     low_n_list := [AFloat (5 # 2); AInt 1];
     race := {[ 1 := AFloat (33 # 32); 2 := AFloat (5 # 2) ]};
     rced_races := AInt 0;
     rc_points := AStr "na" |}.

(** A dump without an entry for bob. *)
Definition dump_short : gmap string perl_skipper :=
  {[ "alice" := perl_alice ]}.

Definition summer : Series :=
  {| name := "summer";
     races := races spring;
     get_all_skippers := get_all_skippers spring;
     skipper_points_list := skipper_points_list spring;
     get_skipper_rc_points := get_skipper_rc_points spring |}.

(** The first series has no dump entry for bob, the second one has a
    wrong finished count for him. *)
Definition short_then_bad : list (Series * perl_run) :=
  [ (spring, loaded dump_short);
    (summer, loaded dump_bad) ].

(** The first series' reference process fails, the second one has a
    wrong finished count for bob. *)
Definition crashed_then_bad : list (Series * perl_run) :=
  [ (spring, crashed_run);
    (summer, loaded dump_bad) ].

(** The data of spring with alice's counted points in the other order. *)
Definition autumn : Series :=
  {| name := "autumn";
     races := races spring;
     get_all_skippers := get_all_skippers spring;
     skipper_points_list := λ k,
       if decide (k = alice)
       then Some {| points_scored := [(5 # 2)%Q; 1%Q] |}
       else None;
     get_skipper_rc_points := get_skipper_rc_points spring |}.

(** alice's reference record with the list in the other order and an
    entry for a third race, which the series does not have. *)
Definition perl_alice_more : perl_skipper :=
  {| finished_races := AInt 2;
     low_n_list := [AInt 1; AFloat (5 # 2)];
     race := {[ 1 := AInt 1; 2 := AFloat (5 # 2); 3 := AInt 7 ]};
     rced_races := AInt 0;
     rc_points := AStr "na" |}.

(** The first series' reference process fails, the dump of the second one
    has no entry for bob. *)
Definition crashed_then_short : list (Series * perl_run) :=
  [ (spring, crashed_run);
    (summer, loaded dump_short) ].

(** The first series' reference process fails with a standard error that
    is not UTF-8, the second one has a wrong finished count for bob. *)
Definition garbled_then_bad : list (Series * perl_run) :=
  [ (spring, garbled_run); (summer, loaded dump_bad) ].

(** The double nearest to 0.4, as [yaml.safe_load] reads [0.4]. *)
Definition float_0_4 : Q := (3602879701896397 # 9007199254740992)%Q.

(** A series in which carol has one very large count of points and four
    small ones. *)
Definition carol : Skipper := {| identifier := "carol" |}.

Definition huge : Series :=
  {| name := "huge";
     races := [];
     get_all_skippers := [carol];
     skipper_points_list := λ _,
       Some {| points_scored :=
                 [inject_Z (10 ^ 27 - 1); (2 # 5); (2 # 5); (2 # 5); (2 # 5)]%Q |};
     get_skipper_rc_points := λ _, None |}.

(** The same five values in the reference, the large one last. *)
Definition perl_carol : perl_skipper :=
  {| finished_races := AInt 0;
     low_n_list := [AFloat float_0_4; AFloat float_0_4; AFloat float_0_4;
                    AFloat float_0_4; AInt (10 ^ 27 - 1)];
     race := ∅;
     rced_races := AInt 0;
     rc_points := AStr "na" |}.

End Sample.
(** ** Basic facts *)

Lemma py_eq_str (p : atom) (s : string) : py_eq p (AStr s) = true ↔ p = AStr s.
Proof.
  destruct p as [z|q|neg| |q| |t|]; simpl;
    try (split; [discriminate|discriminate]).
  rewrite String.eqb_eq. split; congruence.
Qed.

Lemma len_eqb {A B} (l : list A) (k : list B) :
  (len l =? len k) = true ↔ length l = length k.
Proof. unfold len. rewrite Z.eqb_eq. lia. Qed.

Lemma existsb_is_str (l : list atom) :
  existsb is_str l = true ↔ ∃ s, AStr s ∈ l.
Proof.
  rewrite existsb_exists. split.
  - intros (x & Hin & Hx). destruct x; try discriminate.
    eexists. by apply list_elem_of_In.
  - intros (s & Hin). exists (AStr s). split; [by apply list_elem_of_In|done].
Qed.

Lemma len_one {A} (l : list A) : (len l =? 1) = true ↔ ∃ x, l = [x].
Proof.
  unfold len. rewrite Z.eqb_eq. split.
  - destruct l as [|x [|y l]]; simpl; try lia. eauto.
  - intros [x ->]. reflexivity.
Qed.

Lemma no_str_existsb (l : list atom) :
  existsb is_str l = false ↔ ∀ s, AStr s ∉ l.
Proof.
  rewrite <- not_true_iff_false, existsb_is_str. split.
  - intros Hno s Hin. apply Hno. eauto.
  - intros Hno (s & Hin). by apply (Hno s).
Qed.

(** ** Rounding to the nearest integer *)

Lemma round_half_even_nearest (q : Q) :
  nearest_even (Qnum q) (Z.pos (Qden q)) (round_half_even q).
Proof.
  unfold nearest_even, round_half_even.
  destruct q as [n d]. cbn [Qnum Qden].
  pose proof (Z.div_mod n (Z.pos d) ltac:(lia)) as Hdiv.
  pose proof (Z.mod_pos_bound n (Z.pos d) ltac:(lia)) as Hmod.
  set (f := n / Z.pos d) in *. set (r := n mod Z.pos d) in *.
  clearbody f r.
  destruct (2 * r ?= Z.pos d) eqn:Hcmp.
  - apply Z.compare_eq_iff in Hcmp.
    destruct (Z.even f) eqn:Heven.
    + split; [lia|done].
    + split; [lia|]. intros _. rewrite Z.even_add, Heven. reflexivity.
  - assert (2 * r < Z.pos d) as Hlt by by apply Z.compare_lt_iff.
    split; [lia|]. intros Htie. exfalso. lia.
  - assert (Z.pos d < 2 * r) as Hgt by by apply Z.compare_gt_iff.
    split; [lia|]. intros Htie. exfalso. lia.
Qed.

Lemma nearest_even_unique (n d z z' : Z) :
  0 < d → nearest_even n d z → nearest_even n d z' → z = z'.
Proof.
  intros Hd [Hz Hze] [Hz' Hze'].
  assert (z * d - z' * d = (z - z') * d) as Hmul by ring.
  assert (Z.abs (z * d - z' * d) ≤ d) as Hdist by lia.
  assert (Z.abs (z - z') ≤ 1) as Hclose.
  { destruct (Z_le_gt_dec (Z.abs (z - z')) 1) as [|Hfar]; [done|].
    exfalso. assert (2 ≤ z - z' ∨ z - z' ≤ -2) as [H|H] by lia; nia. }
  destruct (decide (z = z')) as [|Hne]; [done|]. exfalso.
  assert (2 * Z.abs (z * d - n) = d ∧ 2 * Z.abs (z' * d - n) = d) as [H1 H2].
  { assert (z - z' = 1 ∨ z - z' = -1) as [H|H] by lia;
      rewrite H in Hmul; lia. }
  specialize (Hze H1). specialize (Hze' H2).
  assert (z' = z + 1 ∨ z' = z - 1) as [-> | ->] by lia.
  - rewrite Z.even_add, Hze in Hze'. discriminate.
  - rewrite Z.even_sub, Hze in Hze'. discriminate.
Qed.

Lemma nearest_even_Qeq (q q' : Q) (z : Z) :
  (q == q')%Q →
  nearest_even (Qnum q) (Z.pos (Qden q)) z →
  nearest_even (Qnum q') (Z.pos (Qden q')) z.
Proof.
  destruct q as [n d], q' as [n' d']. unfold Qeq, nearest_even.
  cbn [Qnum Qden]. intros Heq [Hz Hze].
  assert (Z.abs (z * Z.pos d' - n') * Z.pos d
          = Z.abs (z * Z.pos d - n) * Z.pos d') as Habs.
  { rewrite <- (Z.abs_eq (Z.pos d)) at 1 by lia.
    rewrite <- (Z.abs_eq (Z.pos d')) at 2 by lia.
    rewrite <- !Z.abs_mul. f_equal. lia. }
  split; [nia|]. intros Htie. apply Hze. nia.
Qed.

Lemma round_half_even_Qeq (q q' : Q) :
  (q == q')%Q → round_half_even q = round_half_even q'.
Proof.
  intros Heq. apply (nearest_even_unique (Qnum q') (Z.pos (Qden q'))); [lia| |].
  - apply (nearest_even_Qeq q q' _ Heq), round_half_even_nearest.
  - apply round_half_even_nearest.
Qed.

Lemma round_half_even_inject (q : Q) (k : Z) :
  (q == inject_Z k)%Q → round_half_even q = k.
Proof.
  intros Heq. rewrite (round_half_even_Qeq _ _ Heq).
  apply (nearest_even_unique k 1); [lia|apply (round_half_even_nearest (inject_Z k))|].
  unfold nearest_even. replace (k * 1 - k) with 0 by lia.
  simpl. split; [lia|discriminate].
Qed.

(** ** Sorting *)

Lemma insert_sorted_Permutation (x : Q) (l : list Q) :
  insert_sorted x l ≡ₚ x :: l.
Proof.
  induction l as [|y l IH]; simpl; [done|].
  destruct (Qle_bool x y); [done|].
  rewrite IH. apply Permutation_swap.
Qed.

Lemma sorted_Permutation (l : list Q) : sorted l ≡ₚ l.
Proof.
  induction l as [|x l IH]; simpl; [done|].
  by rewrite insert_sorted_Permutation, IH.
Qed.

Lemma sorted_length (l : list Q) : length (sorted l) = length l.
Proof. apply Permutation_length, sorted_Permutation. Qed.

Lemma Qle_bool_Qeq (x y a b : Q) :
  (x == y)%Q → (a == b)%Q → Qle_bool x a = Qle_bool y b.
Proof.
  intros Hxy Hab. apply eq_true_iff_eq.
  rewrite !Qle_bool_iff. by rewrite Hxy, Hab.
Qed.

Lemma insert_sorted_Forall2 (x y : Q) (l k : list Q) :
  (x == y)%Q → Forall2 Qeq l k →
  Forall2 Qeq (insert_sorted x l) (insert_sorted y k).
Proof.
  intros Hxy. induction 1 as [|a b l k Hab Hlk IH]; simpl.
  - by repeat constructor.
  - rewrite (Qle_bool_Qeq x y a b Hxy Hab).
    destruct (Qle_bool y b); by repeat constructor.
Qed.

Lemma Forall2_Qeq_refl (l : list Q) : Forall2 Qeq l l.
Proof. induction l; by constructor. Qed.

Lemma Forall2_Qeq_sym (l k : list Q) : Forall2 Qeq l k → Forall2 Qeq k l.
Proof. induction 1; by constructor. Qed.

Lemma Forall2_Qeq_trans (l k m : list Q) :
  Forall2 Qeq l k → Forall2 Qeq k m → Forall2 Qeq l m.
Proof.
  intros H. revert m. induction H as [|a b l k Hab _ IH]; intros m Hm.
  - by apply Forall2_nil_inv_l in Hm as ->.
  - apply Forall2_cons_inv_l in Hm as (c & m' & Hbc & Hm' & ->).
    constructor; [by rewrite Hab|by apply IH].
Qed.

Lemma Qle_bool_total (x y : Q) :
  Qle_bool x y = false → Qle_bool y x = true.
Proof.
  intros Hxy. apply Qle_bool_iff.
  destruct (Qlt_le_dec x y) as [Hlt|Hle]; [|done].
  apply Qlt_le_weak, Qle_bool_iff in Hlt. congruence.
Qed.

(** Inserting two values in either order gives the same list, up to the
    order of equal values. *)
Lemma insert_sorted_swap (x y : Q) (l : list Q) :
  Forall2 Qeq (insert_sorted x (insert_sorted y l))
              (insert_sorted y (insert_sorted x l)).
Proof.
  induction l as [|z l IH]; simpl.
  - destruct (Qle_bool x y) eqn:Hxy, (Qle_bool y x) eqn:Hyx;
      try apply Forall2_Qeq_refl.
    + apply Qle_bool_iff in Hxy, Hyx.
      assert (x == y)%Q by by apply Qle_antisym.
      repeat constructor; by try symmetry.
    + apply Qle_bool_total in Hxy. congruence.
  - destruct (Qle_bool x z) eqn:Hxz, (Qle_bool y z) eqn:Hyz; simpl;
      rewrite ?Hxz, ?Hyz.
    + destruct (Qle_bool x y) eqn:Hxy, (Qle_bool y x) eqn:Hyx;
        try apply Forall2_Qeq_refl.
      * apply Qle_bool_iff in Hxy, Hyx.
        assert (x == y)%Q by by apply Qle_antisym.
        repeat constructor; try (by symmetry); try done.
      * apply Qle_bool_total in Hxy. congruence.
    + destruct (Qle_bool y x) eqn:Hyx; [|apply Forall2_Qeq_refl].
      exfalso. apply Qle_bool_iff in Hyx, Hxz.
      assert (Qle_bool y z = true) as H; [|congruence].
      apply Qle_bool_iff. by apply (Qle_trans _ x).
    + destruct (Qle_bool x y) eqn:Hxy; [|apply Forall2_Qeq_refl].
      exfalso. apply Qle_bool_iff in Hxy, Hyz.
      assert (Qle_bool x z = true) as H; [|congruence].
      apply Qle_bool_iff. by apply (Qle_trans _ y).
    + constructor; [done|apply IH].
Qed.

Lemma sorted_Forall2 (l k : list Q) :
  Forall2 Qeq l k → Forall2 Qeq (sorted l) (sorted k).
Proof.
  induction 1 as [|a b l k Hab _ IH]; simpl; [constructor|].
  by apply insert_sorted_Forall2.
Qed.

(** The sorted form does not depend on the order of the list. *)
Lemma sorted_Permutation_Qeq (l k : list Q) :
  l ≡ₚ k → Forall2 Qeq (sorted l) (sorted k).
Proof.
  induction 1 as [|x l k _ IH|x y l|l k m _ IH1 _ IH2]; simpl.
  - constructor.
  - by apply insert_sorted_Forall2.
  - apply insert_sorted_swap.
  - by apply (Forall2_Qeq_trans _ (sorted k)).
Qed.

Lemma mapM_outcome_Permutation {A B} (f : A → outcome B) (l k : list A) :
  l ≡ₚ k →
  match mapM f l, mapM f k with
  | Ok a, Ok b => a ≡ₚ b
  | Raise _, Raise _ => True
  | _, _ => False
  end.
Proof.
  induction 1 as [|x l k _ IH|x y l|l k m _ IH1 _ IH2]; simpl.
  - done.
  - destruct (f x); simpl; [|done].
    destruct (mapM f l), (mapM f k); simpl; try done. by constructor.
  - destruct (f x), (f y); simpl; try done; destruct (mapM f l); simpl;
      try done. apply Permutation_swap.
  - destruct (mapM f l), (mapM f k), (mapM f m); try done. by etrans.
Qed.

(** ** The precision of the context *)

Lemma adjusted_from_spec (fuel : nat) (e : Z) (a : Q) :
  Qle_bool (pow10 (adjusted_from fuel e a)) a = true
  ∨ adjusted_from fuel e a = e - Z.of_nat fuel.
Proof.
  revert e. induction fuel as [|fuel IH]; intros e.
  - right. simpl. lia.
  - cbn [adjusted_from]. destruct (Qle_bool (pow10 e) a) eqn:Hle.
    + by left.
    + destruct (IH (e - 1)) as [H|H]; [by left|right]. lia.
Qed.

(** A number below [10 ** 27] has its leading digit below position 27. *)
Lemma adjusted_small (q : Q) :
  (Qabs q < inject_Z (10 ^ 27))%Q → adjusted q ≤ 26.
Proof.
  intros Hq. unfold adjusted.
  pose proof (Z.log2_nonneg (Z.abs (Qnum q))) as Hn.
  pose proof (Z.log2_nonneg (Z.pos (Qden q))) as Hd.
  set (fuel := Z.to_nat (Z.log2 (Z.abs (Qnum q)) + Z.log2 (Z.pos (Qden q)) + 3)).
  set (e := Z.log2 (Z.abs (Qnum q)) + 1).
  assert (e - Z.of_nat fuel ≤ 26) as Hlow by (unfold e, fuel; lia).
  destruct (adjusted_from_spec fuel e (Qabs q)) as [Hle|Heq]; [|lia].
  set (r := adjusted_from fuel e (Qabs q)) in *.
  - destruct (Z_le_gt_dec r 26) as [|Hbig]; [done|].
    exfalso. apply Qle_bool_iff in Hle.
    assert (inject_Z (10 ^ 27) <= pow10 r)%Q as Hpow.
    { unfold pow10. destruct (0 <=? r) eqn:Hr; [|apply Z.leb_gt in Hr; lia].
      rewrite <- Zle_Qle. apply Z.pow_le_mono_r; lia. }
    apply (Qlt_irrefl (Qabs q)).
    eapply Qlt_le_trans; [exact Hq|]. by eapply Qle_trans.
Qed.

(** A whole number of tenths below [10 ** 27] fits the precision: the
    rounding of the context leaves it as it is. *)
Lemma round_prec_exact (q : Q) :
  is_tenth q → (Qabs q < inject_Z (10 ^ 27))%Q → (round_prec q == q)%Q.
Proof.
  intros [c Hc] Hq. unfold round_prec.
  destruct (Qeq_bool q 0) eqn:Hzero.
  { apply Qeq_bool_iff in Hzero. by rewrite Hzero. }
  pose proof (adjusted_small q Hq) as He.
  set (s := adjusted q - 27). assert (s ≤ -1) as Hs by (unfold s; lia).
  unfold pow10. destruct (0 <=? s) eqn:Hpos; [apply Z.leb_le in Hpos; lia|].
  set (m := - s - 1). assert (0 ≤ m) as Hm by (unfold m; lia).
  replace (- s) with (Z.succ m) by (unfold m; lia).
  rewrite Z.pow_succ_r by done.
  assert (0 < 10 ^ m) as Hpm by (apply Z.pow_pos_nonneg; lia).
  set (p := Z.to_pos (10 * 10 ^ m)).
  assert (Z.pos p = 10 * 10 ^ m) as Hp by (unfold p; rewrite Z2Pos.id; lia).
  assert (q / (1 # p) == inject_Z (c * 10 ^ m))%Q as Hdiv.
  { rewrite Hc. unfold Qeq, Qdiv, Qmult, Qinv, inject_Z. cbn [Qnum Qden].
    rewrite Hp. lia. }
  rewrite (round_half_even_inject _ _ Hdiv), Hc.
  unfold Qeq, Qmult, inject_Z. cbn [Qnum Qden]. rewrite Pos2Z.inj_mul, Hp. lia.
Qed.

Lemma is_tenth_Qeq (q r : Q) : (q == r)%Q → is_tenth q → is_tenth r.
Proof. intros Heq [c Hc]. exists c. by rewrite <- Heq. Qed.

Lemma is_tenth_plus (q r : Q) : is_tenth q → is_tenth r → is_tenth (q + r).
Proof.
  intros [c Hc] [d Hd]. exists (c + d). rewrite Hc, Hd.
  unfold Qeq, Qplus. cbn [Qnum Qden]. lia.
Qed.

Lemma is_tenth_0 : is_tenth 0.
Proof. by exists 0. Qed.

Lemma abs_total_nonneg (l : list Q) : (0 <= abs_total l)%Q.
Proof.
  induction l as [|x l IH]; simpl; [apply Qle_refl|].
  pose proof (Qabs_nonneg x) as Hx.
  replace 0%Q with (0 + 0)%Q by done. by apply Qplus_le_compat.
Qed.

Lemma abs_total_Permutation (l k : list Q) :
  l ≡ₚ k → (abs_total l == abs_total k)%Q.
Proof.
  induction 1 as [|x l k _ IH|x y l|l k m _ IH1 _ IH2]; simpl.
  - reflexivity.
  - by rewrite IH.
  - ring.
  - by rewrite IH1.
Qed.

Lemma abs_total_Forall2 (l k : list Q) :
  Forall2 Qeq l k → (abs_total l == abs_total k)%Q.
Proof.
  induction 1 as [|x y l k Hxy _ IH]; simpl; [reflexivity|].
  by rewrite Hxy, IH.
Qed.

Lemma total_Permutation (l k : list Q) : l ≡ₚ k → (total l == total k)%Q.
Proof.
  induction 1 as [|x l k _ IH|x y l|l k m _ IH1 _ IH2]; simpl.
  - reflexivity.
  - by rewrite IH.
  - ring.
  - by rewrite IH1.
Qed.

Lemma total_Forall2 (l k : list Q) : Forall2 Qeq l k → (total l == total k)%Q.
Proof.
  induction 1 as [|x y l k Hxy _ IH]; simpl; [reflexivity|].
  by rewrite Hxy, IH.
Qed.

Lemma Forall_is_tenth_Forall2 (l k : list Q) :
  Forall2 Qeq l k → Forall is_tenth l → Forall is_tenth k.
Proof.
  induction 1 as [|x y l k Hxy _ IH]; [done|].
  intros [Hx Hl]%Forall_cons. constructor; [by apply (is_tenth_Qeq x)|auto].
Qed.

(** Within the precision the sum is the exact sum. *)
Lemma sum_exact_from (l : list Q) (acc : Q) :
  is_tenth acc → Forall is_tenth l →
  (Qabs acc + abs_total l < inject_Z (10 ^ 27))%Q →
  (fold_left (fun a x => round_prec (a + x)) l acc == acc + total l)%Q.
Proof.
  revert acc. induction l as [|x l IH]; intros acc Hacc Hl Hbound; simpl.
  - ring.
  - apply Forall_cons in Hl as [Hx Hl]. simpl in Hbound.
    pose proof (abs_total_nonneg l) as Hnn.
    pose proof (Qabs_triangle acc x) as Htri.
    assert (round_prec (acc + x) == acc + x)%Q as Hexact.
    { apply round_prec_exact; [by apply is_tenth_plus|]. lra. }
    rewrite IH.
    + rewrite Hexact. ring.
    + apply (is_tenth_Qeq (acc + x)); [by symmetry|by apply is_tenth_plus].
    + done.
    + rewrite Hexact. lra.
Qed.

Lemma sum_exact (l : list Q) :
  Forall is_tenth l → (abs_total l < inject_Z (10 ^ 27))%Q →
  (sum l == total l)%Q.
Proof.
  intros Hl Hbound. unfold sum.
  rewrite (sum_exact_from l 0 is_tenth_0 Hl); [ring|].
  by rewrite Qplus_0_l.
Qed.

Lemma sum_rounded_finite (qs : list Q) :
  sum_rounded (RFin <$> qs) = RFin (sum qs).
Proof.
  unfold sum_rounded, sum. generalize 0%Q.
  induction qs as [|q qs IH]; intros acc; [done|]. simpl. apply IH.
Qed.

(** Within the precision, equal lengths and equal sorted forms give equal
    sums. *)
Lemma sums_agree (l k : list Q) :
  Forall2 Qeq (sorted l) (sorted k) →
  Forall is_tenth k →
  (abs_total l < inject_Z (10 ^ 27))%Q →
  Qeq_bool (sum l) (sum k) = true.
Proof.
  intros Hsorted Hk Hbound. apply Qeq_bool_iff.
  pose proof (sorted_Permutation l) as Hl'.
  pose proof (sorted_Permutation k) as Hk'.
  assert (Forall is_tenth l) as Hl.
  { rewrite <- Hl'. apply (Forall_is_tenth_Forall2 (sorted k));
      [by apply Forall2_Qeq_sym|by rewrite Hk']. }
  assert (abs_total k == abs_total l)%Q as Habs.
  { rewrite <- (abs_total_Permutation _ _ Hk'),
            <- (abs_total_Permutation _ _ Hl').
    symmetry. by apply abs_total_Forall2. }
  rewrite (sum_exact l Hl Hbound), (sum_exact k Hk) by by rewrite Habs.
  rewrite <- (total_Permutation _ _ Hl'), <- (total_Permutation _ _ Hk').
  by apply total_Forall2.
Qed.

(** ** Facts about the series-points check *)

Lemma finite_values_fmap (qs : list Q) : finite_values (RFin <$> qs) = Some qs.
Proof.
  unfold finite_values. induction qs as [|q qs IH]; [done|].
  cbn [fmap list_fmap mapM]. fold (fmap RFin qs). by rewrite IH.
Qed.

Lemma finite_values_Some (ps : list rdec) (qs : list Q) :
  finite_values ps = Some qs ↔ ps = RFin <$> qs.
Proof.
  split; [|intros ->; apply finite_values_fmap].
  unfold finite_values. revert qs.
  induction ps as [|[q|] ps IH]; intros qs; cbn [mapM]; simpl.
  - by intros [= <-].
  - destruct (mapM _ ps) as [qs'|]; simpl; [|done].
    intros [= <-]. by rewrite (IH qs' eq_refl).
  - done.
Qed.

Lemma sorted_rounded_finite (qs : list Q) :
  sorted_rounded (RFin <$> qs) = Ok (RFin <$> sorted qs).
Proof. unfold sorted_rounded. by rewrite finite_values_fmap. Qed.

Lemma sorted_rounded_length (ps sp : list rdec) :
  sorted_rounded ps = Ok sp → length sp = length ps.
Proof.
  unfold sorted_rounded. destruct (finite_values ps) as [qs|] eqn:Hfin.
  - apply finite_values_Some in Hfin as ->. intros [= <-].
    by rewrite !length_fmap, sorted_length.
  - destruct (2 <=? length ps)%nat; [done|]. by intros [= <-].
Qed.

(** On finite values the loop finds no difference exactly when the two
    lists are equal position by position. *)
Lemma first_diff_None (i : nat) (l k : list Q) :
  length l = length k →
  first_diff i (zip l (RFin <$> k)) = None ↔ Forall2 Qeq l k.
Proof.
  revert i k. induction l as [|a l IH]; intros i [|b k] Hlen;
    simpl in *; try discriminate.
  - split; [constructor|done].
  - injection Hlen as Hlen. destruct (Qeq_bool a b) eqn:Hab; simpl.
    + rewrite (IH (S i) k Hlen). apply Qeq_bool_iff in Hab. split.
      * by constructor.
      * by intros [_ ?]%Forall2_cons.
    + split; [discriminate|]. intros [Hq _]%Forall2_cons.
      apply Qeq_bool_iff in Hq. congruence.
Qed.

(** A NaN differs from everything: when the loop finds no difference, the
    reference values are finite. *)
Lemma first_diff_None_finite (i : nat) (l : list Q) (ps : list rdec) :
  length l = length ps →
  first_diff i (zip l ps) = None →
  ∃ qs, ps = RFin <$> qs.
Proof.
  revert i ps. induction l as [|a l IH]; intros i [|[q|] ps] Hlen;
    simpl in *; try discriminate.
  - by exists [].
  - injection Hlen as Hlen. destruct (negb (Qeq_bool a q)); [done|].
    intros [qs ->]%(IH (S i) ps Hlen). by exists (q :: qs).
Qed.

Lemma first_diff_Some (i j : nat) (l : list (Q * rdec)) (a : Q) (b : rdec) :
  first_diff i l = Some (j, a, b) →
  differs a b = true ∧ (i ≤ j)%nat ∧ l !! (j - i)%nat = Some (a, b).
Proof.
  revert i. induction l as [|[x y] l IH]; intros i; simpl; [discriminate|].
  destruct (differs x y) eqn:Hxy; simpl.
  - intros [= <- <- <-]. rewrite Nat.sub_diag. done.
  - intros H. apply IH in H as (? & ? & Hl). split; [done|]. split; [lia|].
    replace (j - i)%nat with (S (j - S i)) by lia. done.
Qed.

Lemma first_diff_lookup (j : nat) (l : list Q) (k : list rdec) (a : Q)
    (b : rdec) :
  first_diff 0 (zip l k) = Some (j, a, b) →
  l !! j = Some a ∧ k !! j = Some b ∧ differs a b = true.
Proof.
  intros (Hne & _ & Hl)%first_diff_Some.
  rewrite Nat.sub_0_r in Hl. apply lookup_zip_with_Some in Hl.
  destruct Hl as (x & y & [= <- <-] & Hx & Hy). done.
Qed.

(** What [round(Decimal(p), 1)] returns, when finite, is a whole number of
    tenths. *)
Lemma round1_is_tenth (d : dec) (q : Q) : round1 d = Ok (RFin q) → is_tenth q.
Proof.
  destruct d as [x| |[]]; simpl; try done.
  destruct (10 ^ 28 <=? _); [done|]. intros [= <-]. by eexists.
Qed.

Lemma rounded_list_tenths (l : list atom) (qs : list Q) :
  mapM (λ p, Decimal p ≫= round1) l = Ok (RFin <$> qs) → Forall is_tenth qs.
Proof.
  revert qs. induction l as [|p l IH]; intros qs; cbn [mapM].
  - destruct qs; [constructor|done].
  - destruct (Decimal p ≫= round1) as [r|e] eqn:Hp; simpl; [|done].
    destruct (mapM _ l) as [rs|e]; simpl; [|done].
    destruct qs as [|q qs]; [done|]. intros [= -> ->].
    constructor; [|by apply IH].
    destruct (Decimal p) as [d|]; simpl in Hp; [|done].
    by apply (round1_is_tenth d).
Qed.

(** When the loop over the sorted lists finds no difference, the reference
    values are finite and the sorted forms are equal. *)
Lemma series_points_no_diff (ks : list Q) (ps sorted_ps : list rdec) :
  length ks = length ps →
  sorted_rounded ps = Ok sorted_ps →
  first_diff 0 (zip (sorted ks) sorted_ps) = None →
  ∃ qs, ps = RFin <$> qs ∧ Forall2 Qeq (sorted ks) (sorted qs).
Proof.
  intros Hlen Hsorted Hdiff.
  pose proof (sorted_rounded_length _ _ Hsorted) as Hlen'.
  assert (length (sorted ks) = length sorted_ps) as Hlen''.
  { rewrite sorted_length. congruence. }
  destruct (first_diff_None_finite _ _ _ Hlen'' Hdiff) as [qs' Hqs'].
  unfold sorted_rounded in Hsorted.
  destruct (finite_values ps) as [qs|] eqn:Hfin.
  - apply finite_values_Some in Hfin as ->. exists qs. split; [done|].
    injection Hsorted as <-.
    apply (first_diff_None 0); [|done].
    rewrite !sorted_length. by rewrite length_fmap in Hlen.
  - destruct (2 <=? length ps)%nat; [done|]. injection Hsorted as ->.
    subst sorted_ps. by rewrite finite_values_fmap in Hfin.
Qed.

(** ** Facts about the per-race check *)

Lemma race_pts_perl_default (perl : perl_skipper) (i : nat) :
  race_pts_perl perl i = default ANone (race perl !! (Z.of_nat i + 1)).
Proof. unfold race_pts_perl. by destruct (race perl !! _). Qed.

Lemma race_pts_absent (r : Race) (skip : Skipper) :
  get_skipper_race_points r !! skip = None → skip ∉ rc_skippers r →
  race_pts r skip = ANone.
Proof.
  intros Hpts Hrc. unfold race_pts. rewrite Hpts.
  by rewrite bool_decide_eq_false_2.
Qed.

Lemma race_agrees_iff (r : Race) (skip : Skipper) (perl : perl_skipper)
    (i : nat) :
  race_agrees r skip perl i ↔
  py_eq (race_pts r skip) (race_pts_perl perl i) = true.
Proof.
  unfold race_agrees. rewrite race_pts_perl_default. split; [|by right].
  intros [(Hpts & Hrc & Href)|H]; [|done].
  by rewrite (race_pts_absent _ _ Hpts Hrc), Href.
Qed.

(** One turn of the loop: it goes on exactly when the two sides are equal. *)
Lemma race_loop_cons (i : nat) (r : Race) (rs : list Race) (skip : Skipper)
    (perl : perl_skipper) :
  race_loop i (r :: rs) skip perl =
    if py_eq (race_pts r skip) (race_pts_perl perl i)
    then race_loop (S i) rs skip perl
    else Some (race_label i, VAtom (race_pts r skip),
               VAtom (race_pts_perl perl i)).
Proof.
  cbn [race_loop]. unfold py_ne, race_label.
  generalize (race_pts r skip) (race_pts_perl perl i). intros a b.
  destruct a, b; cbn [is_none andb]; try done; by destruct (py_eq _ _).
Qed.

Lemma race_loop_spec (i : nat) (rs : list Race) (skip : Skipper)
    (perl : perl_skipper) :
  match race_loop i rs skip perl with
  | None => ∀ j r, rs !! j = Some r → race_agrees r skip perl (i + j)
  | Some m =>
      ∃ j r, rs !! j = Some r
        ∧ m = (race_label (i + j), VAtom (race_pts r skip),
               VAtom (race_pts_perl perl (i + j)))
        ∧ ¬ race_agrees r skip perl (i + j)
        ∧ ∀ j' r', (j' < j)%nat → rs !! j' = Some r' →
            race_agrees r' skip perl (i + j')
  end.
Proof.
  revert i. induction rs as [|r rs IH]; intros i.
  - simpl. intros j r. by rewrite lookup_nil.
  - rewrite race_loop_cons.
    destruct (py_eq (race_pts r skip) (race_pts_perl perl i)) eqn:Heq.
    + specialize (IH (S i)).
      destruct (race_loop (S i) rs skip perl) as [m|].
      * destruct IH as (j & r' & Hj & -> & Hne & Hbefore).
        exists (S j), r'. replace (i + S j)%nat with (S i + j)%nat by lia.
        repeat split; try done.
        intros [|j'] r'' Hlt Hl.
        -- injection Hl as <-. rewrite Nat.add_0_r. by apply race_agrees_iff.
        -- replace (i + S j')%nat with (S i + j')%nat by lia.
           apply Hbefore; [lia|done].
      * intros [|j] r' Hl.
        -- injection Hl as <-. rewrite Nat.add_0_r. by apply race_agrees_iff.
        -- replace (i + S j)%nat with (S i + j)%nat by lia. by apply IH.
    + exists 0%nat, r. rewrite Nat.add_0_r. repeat split; try done.
      * rewrite race_agrees_iff. congruence.
      * intros j' r' Hlt. lia.
Qed.

(** ** Facts about the two loops of [check_series_with_file] *)

Lemma run_checks_first_mismatch (series : Series) (skip : Skipper)
    (perl : perl_skipper) :
  run_checks check_functions series skip perl = first_mismatch series skip perl.
Proof.
  unfold first_mismatch, check_functions, and_then. cbn [run_checks].
  destruct (check_finished_race_count series skip perl) as [[m|]|e]; try done.
  destruct (check_series_points series skip perl) as [[m|]|e]; try done.
  destruct (check_race_results series skip perl) as [[m|]|e]; try done.
  destruct (check_rc_race_count series skip perl) as [[m|]|e]; try done.
  destruct (check_rc_points series skip perl) as [[m|]|e]; done.
Qed.



Lemma skipper_loop_mapM (skips : list Skipper) (series : Series)
    (perl_output : gmap string perl_skipper) (errs : list error_output) :
  skipper_loop check_functions skips series perl_output errs =
    (λ rs, errs ++ omap id rs) <$> mapM (skipper_report series perl_output) skips.
Proof.
  revert errs. induction skips as [|skip skips IH]; intros errs.
  - simpl. unfold mret, outcome_ret. simpl. by rewrite app_nil_r.
  - cbn [skipper_loop mapM].
    remember (mapM (skipper_report series perl_output) skips) as rest eqn:Hrest.
    unfold skipper_report.
    destruct (perl_output !! identifier skip) as [perl|]; [|done].
    rewrite run_checks_first_mismatch.
    destruct (first_mismatch series skip perl) as [[m|]|e]; simpl; [| |done].
    + rewrite IH. destruct rest as [rs|e]; simpl; [|done].
      by rewrite <- app_assoc.
    + rewrite IH. by destruct rest.
Qed.


Lemma check_series_success (series : Series)
    (perl_output : gmap string perl_skipper) (printed : list line) :
  check_series_with_file series perl_output = Ok (true, printed) →
  printed = [].
Proof.
  unfold check_series_with_file.
  destruct (skipper_loop _ _ _ _ _) as [[|err errs]|e]; simpl; congruence.
Qed.

(** ** Facts about the loop of [main_check] *)

Lemma turn_true (s : Series) (proc : perl_run) :
  (turn s proc).2 = Ok true ↔ series_passes (s, proc).
Proof.
  unfold turn, series_passes. cbn [fst snd].
  destruct (setup proc) as [e|]; [split; [done|by intros [? _]]|].
  destruct (returncode proc =? 0) eqn:Hrc; cbn [negb].
  - apply Z.eqb_eq in Hrc.
    destruct (dumper proc) as [dump|e].
    + destruct (check_series_with_file s dump) as [[[] printed]|e] eqn:Hcheck;
        cbn [snd].
      * rewrite (check_series_success _ _ _ Hcheck) in Hcheck.
        split; [|done]. intros _. split; [done|]. split; [done|]. eauto.
      * split; [done|]. intros (_ & _ & dump' & [= <-] & Hc). congruence.
      * split; [done|]. intros (_ & _ & dump' & [= <-] & Hc). congruence.
    + split; [done|]. by intros (_ & _ & dump' & ? & _).
  - apply Z.eqb_neq in Hrc.
    destruct (decode_utf8 (stderr proc)); (split; [done|]); by intros (_ & ? & _).
Qed.

Lemma turn_passes (s : Series) (proc : perl_run) :
  series_passes (s, proc) → turn s proc = ([], Ok true).
Proof.
  intros (Hsetup & Hrc & dump & Hdump & Hcheck). unfold turn.
  cbn [fst snd] in *. by rewrite Hsetup, Hrc, Hdump, Hcheck.
Qed.

Lemma turn_completes (s : Series) (proc : perl_run) :
  series_completes (s, proc) ↔ ∃ success, (turn s proc).2 = Ok success.
Proof.
  unfold turn, series_completes. cbn [fst snd].
  destruct (setup proc) as [e|]; [split; [by intros [? _]|by intros [? ?]]|].
  destruct (returncode proc =? 0) eqn:Hrc; cbn [negb].
  - apply Z.eqb_eq in Hrc.
    destruct (dumper proc) as [dump|e].
    + destruct (check_series_with_file s dump) as [[b printed]|e] eqn:Hcheck;
        cbn [snd].
      * split; [eauto|]. intros _. split; [done|]. right. eauto.
      * split; [|by intros [? ?]].
        intros (_ & [[? _]|(_ & dump' & r & [= <-] & Hc)]); congruence.
    + split; [|by intros [? ?]].
      by intros (_ & [[? _]|(_ & dump' & r & ? & _)]).
  - apply Z.eqb_neq in Hrc.
    destruct (decode_utf8 (stderr proc)) as [text|e]; cbn [snd].
    + split; [eauto|]. intros _. split; [done|]. left. eauto.
    + split; [|by intros [? ?]].
      intros (_ & [(_ & text & ?)|[? _]]); done.
Qed.

(** What the loop prints does not depend on the state it starts from; the
    flag it ends with is the conjunction of the flag it starts with and of
    the verdicts. *)
Lemma main_loop_from (db : list (Series * perl_run)) (ok : bool)
    (out : list event) :
  main_loop db ok out =
    (out ++ (main_loop db true []).1,
     match (main_loop db true []).2 with
     | Ok b => Ok (ok && b)
     | Raise e => Raise e
     end).
Proof.
  revert ok out. induction db as [|[s proc] db IH]; intros ok out.
  - simpl. by rewrite app_nil_r, andb_true_r.
  - cbn [main_loop]. destruct (turn s proc) as [printed [success|e]].
    + rewrite (IH _ (out ++ printed)), (IH _ ([] ++ printed)). cbn [fst snd].
      rewrite <- app_assoc. f_equal.
      destruct (main_loop db true []).2 as [b|]; [|done].
      destruct success; [done|]. by rewrite andb_false_r.
    + done.
Qed.

Lemma main_loop_passes (db : list (Series * perl_run)) :
  (main_loop db true []).2 = Ok true ↔ Forall series_passes db.
Proof.
  induction db as [|[s proc] db IH].
  - simpl. split; [constructor|done].
  - rewrite Forall_cons, <- turn_true, <- IH. cbn [main_loop].
    destruct (turn s proc) as [printed [success|e]]; cbn [snd].
    + rewrite main_loop_from. cbn [snd].
      destruct success, (main_loop db true []).2 as [[]|]; cbn [andb];
        intuition congruence.
    + intuition congruence.
Qed.

Lemma exit_status_zero (mkdir : option exn) (db : list (Series * perl_run)) :
  exit_status (main_check mkdir db) = 0 ↔
  mkdir = None ∧ (main_loop db true []).2 = Ok true.
Proof.
  unfold exit_status, main_check. destruct mkdir as [e|]; simpl.
  - split; [done|by intros [? _]].
  - destruct (main_loop db true []) as [out [[]|e]]; simpl;
      intuition congruence.
Qed.

(** When no turn raises, the loop prints the lines of every series. *)
Lemma main_loop_completes (db : list (Series * perl_run)) :
  Forall series_completes db →
  (main_loop db true []).1 = concat (series_events <$> db)
  ∧ ∃ b, (main_loop db true []).2 = Ok b.
Proof.
  induction 1 as [|[s proc] db Hs _ [IH1 [b IH2]]].
  - simpl. eauto.
  - cbn [main_loop fmap list_fmap concat]. unfold series_events at 1.
    apply turn_completes in Hs as [success Hs]. cbn [fst snd].
    destruct (turn s proc) as [printed res]. cbn [fst snd] in *. subst res.
    rewrite main_loop_from. cbn [fst snd]. rewrite IH1, IH2. eauto.
Qed.

(** When a turn raises, the loop ends there, having printed the lines of
    the series before it and what the turn printed before raising. *)
Lemma main_loop_raises (pre post : list (Series * perl_run)) (s : Series)
    (proc : perl_run) (printed : list event) (e : exn) (ok : bool)
    (out : list event) :
  Forall series_completes pre →
  turn s proc = (printed, Raise e) →
  main_loop (pre ++ (s, proc) :: post) ok out
    = (out ++ concat (series_events <$> pre) ++ printed, Raise e).
Proof.
  intros Hpre Hturn. revert ok out.
  induction Hpre as [|[s' proc'] pre Hs _ IH]; intros ok out.
  - cbn [app main_loop fmap list_fmap concat]. by rewrite Hturn.
  - cbn [app main_loop fmap list_fmap concat]. unfold series_events at 1.
    apply turn_completes in Hs as [success Hs]. cbn [fst snd].
    destruct (turn s' proc') as [printed' res]. cbn [fst snd] in *. subst res.
    by rewrite IH, <- !app_assoc.
Qed.

Lemma passing_series_prints_nothing (db : list (Series * perl_run)) :
  Forall series_passes db → concat (series_events <$> db) = [].
Proof.
  induction 1 as [|[s proc] db Hs _ IH]; [done|].
  cbn [fmap list_fmap concat]. unfold series_events at 1. cbn [fst snd].
  by rewrite (turn_passes _ _ Hs), IH.
Qed.

Lemma passes_completes (db : list (Series * perl_run)) :
  Forall series_passes db → Forall series_completes db.
Proof.
  intros Hall. apply (Forall_impl _ _ _ Hall).
  intros [s proc] Hs. apply turn_completes. exists true. by apply turn_true.
Qed.

(** ** Evaluations *)

Example parse_2_35 : DecimalLit.parse "2.35" = Some (DFin (235 # 100)).
Proof. reflexivity. Qed.
Example parse_exp : DecimalLit.parse " -1_0.5e1 " = Some (DFin (inject_Z (-105))).
Proof. reflexivity. Qed.
Example parse_na : DecimalLit.parse "na" = None.
Proof. reflexivity. Qed.
Example parse_dot : DecimalLit.parse "." = None.
Proof. reflexivity. Qed.
Example parse_nan : DecimalLit.parse "-NaN12" = Some (DNaN false).
Proof. reflexivity. Qed.
Example parse_snan : DecimalLit.parse "snan" = Some (DNaN true).
Proof. reflexivity. Qed.
Example parse_inf : DecimalLit.parse "-in_f" = Some (DInf true).
Proof. reflexivity. Qed.
Example parse_tiny : DecimalLit.parse "1e-1999999999999999998" = None.
Proof. reflexivity. Qed.
Example round1_tie_even : round1 (DFin (225 # 100)) = Ok (RFin (22 # 10)).
Proof. reflexivity. Qed.
Example round1_tie_odd : round1 (DFin (235 # 100)) = Ok (RFin (24 # 10)).
Proof. reflexivity. Qed.
Example round1_neg : round1 (DFin (- (234 # 100))) = Ok (RFin (-23 # 10)).
Proof. reflexivity. Qed.
Example round1_large : round1 (DFin (inject_Z (10 ^ 27))) = Raise InvalidOperation.
Proof. reflexivity. Qed.
Example round1_nan : round1 (DNaN false) = Ok RNaN.
Proof. reflexivity. Qed.

(** 29 digits are rounded to 28. *)
Example round_prec_29 :
  Qeq_bool (round_prec (inject_Z (10 ^ 27) + (6 # 10)))
           (inject_Z (10 ^ 27 + 1)) = true.
Proof. vm_compute. reflexivity. Qed.

Example decode_bad_byte :
  decode_utf8 (stderr Sample.garbled_run) = Raise UnicodeDecodeError.
Proof. reflexivity. Qed.

Example spring_passes :
  check_series_with_file Sample.spring Sample.dump = Ok (true, []).
Proof. vm_compute. reflexivity. Qed.

Example spring_all_pass :
  main_check None [(Sample.spring, Sample.ok_run)] =
    {| events := [Stdout (LText "All Pass!")]; how := Returned |}.
Proof. vm_compute. reflexivity. Qed.

Example spring_crashed :
  main_check None [(Sample.spring, Sample.crashed_run)] =
    {| events := [Stderr (LText "spring Process Error!");
                  Stderr (LCodes (codes "    no such file"))];
       how := SysExit 1 |}.
Proof. vm_compute. reflexivity. Qed.

(** bob's finished count is wrong and his reference RC points would make
    [check_rc_points] raise: only the count is reported, alice still passes,
    and the series fails with a single record. *)
Example later_checks_not_run :
  check_rc_points Sample.spring Sample.bob Sample.perl_bob_bad
    = Raise InvalidOperation
  ∧ check_series_with_file Sample.spring Sample.dump_bad
    = Ok (false,
          [LText "Series spring";
           LError {| err_skipper := "bob"; err_prm_name := "Count";
                     err_py_val := VAtom (AInt 1);
                     err_perl_val := VAtom (AInt 5) |}]).
Proof. split; vm_compute; reflexivity. Qed.

(** A dump without bob: the lookup raises, the run ends there. *)
Example short_dump_ends_run :
  main_check None Sample.short_then_bad
    = {| events := []; how := Uncaught KeyError |}.
Proof. vm_compute. reflexivity. Qed.

(** A standard error that is not UTF-8: the header is printed, then the
    decoding raises and the run ends there. *)
Example garbled_stderr_ends_run :
  main_check None Sample.garbled_then_bad
    = {| events := [Stderr (LText "spring Process Error!")];
         how := Uncaught UnicodeDecodeError |}.
Proof. vm_compute. reflexivity. Qed.

(** The per-race check on the float 1.03125 against the kernel's 1.0. *)
Example race_value_compared_raw :
  check_race_results Sample.spring Sample.alice Sample.perl_alice_fine
    = Ok (Some ("Race[1]", VAtom (ADec 1), VAtom (AFloat (33 # 32))))
  ∧ round1 (DFin (33 # 32)) = Ok (RFin (10 # 10)).
Proof. split; vm_compute; reflexivity. Qed.

(** carol's points and the reference agree value by value, but the two
    sums, taken in the order of the lists, are rounded differently. *)
Example sum_count_reported :
  check_series_points Sample.huge Sample.carol Sample.perl_carol
    = Ok (Some ("Sum Count", VAtom (AInt 5), VAtom (AInt 5))).
Proof. vm_compute. reflexivity. Qed.


(** * Properties of the harness *)

(** ** The loops of [check_series_with_file] *)



(** ** Series points *)

(** C5: for a skipper whose kernel [skipper_points_list] is a numeric list,
    a string anywhere in the reference [low_n_list] makes the series-points
    check report the mismatch class [Number/String], carrying the kernel
    list and the raw reference list; nothing is converted or compared. *)
Theorem number_string_mismatch (series : Series) (skip : Skipper)
    (perl : perl_skipper) (sp : SeriesPoints) :
  skipper_points_list series skip = Some sp →
  (∃ s, AStr s ∈ low_n_list perl) →
  check_series_points series skip perl =
    Ok (Some ("Number/String", VList (ADec <$> points_scored sp),
              VList (low_n_list perl))).
Proof.
  intros Hsp Hstr. apply existsb_is_str in Hstr.
  unfold check_series_points. by rewrite Hsp, Hstr.
Qed.

Lemma number_string_mismatch_witness :
  check_series_points Sample.spring Sample.alice Sample.perl_bob =
    Ok (Some ("Number/String", VList [ADec 1; ADec (5 # 2)],
              VList [AStr "DNQ"])).
Proof.
  apply (number_string_mismatch Sample.spring Sample.alice Sample.perl_bob
           {| points_scored := [1%Q; (5 # 2)%Q] |}).
  - reflexivity.
  - exists "DNQ". apply list_elem_of_here.
Defined.

(** C7: for a skipper whose kernel [skipper_points_list] is the falsy
    DNQ/na sentinel, the series-points check passes exactly when the
    reference [low_n_list] is the one-element list ["na"] or ["DNQ"]; any
    other length gives an [Array Length] mismatch, and a single element
    that is neither string gives a [Point String] mismatch. *)
Theorem sentinel_points_check (series : Series) (skip : Skipper)
    (perl : perl_skipper) :
  skipper_points_list series skip = None →
  (check_series_points series skip perl = Ok None ↔
     low_n_list perl = [AStr "na"] ∨ low_n_list perl = [AStr "DNQ"])
  ∧ (length (low_n_list perl) ≠ 1%nat →
     check_series_points series skip perl =
       Ok (Some ("Array Length", VAtom (AInt 1), VList (low_n_list perl))))
  ∧ (∀ p, low_n_list perl = [p] → p ≠ AStr "na" → p ≠ AStr "DNQ" →
     check_series_points series skip perl =
       Ok (Some ("Point String", VAtom (AStr "na/DNQ"), VAtom p))).
Proof.
  intros Hsp. unfold check_series_points. rewrite Hsp.
  destruct (len (low_n_list perl) =? 1) eqn:Hlen; simpl.
  - apply len_one in Hlen as [p Hp]. rewrite Hp. simpl.
    destruct (py_eq p (AStr "na")) eqn:Hna;
      [|destruct (py_eq p (AStr "DNQ")) eqn:Hdnq]; simpl.
    + apply py_eq_str in Hna as ->.
      split; [split; auto|split; [done|]]. intros p' [= <-]. done.
    + apply py_eq_str in Hdnq as ->.
      split; [split; auto|split; [done|]]. intros p' [= <-]. done.
    + assert (p ≠ AStr "na") as Hn1.
      { intros ->. by rewrite (proj2 (py_eq_str _ _)) in Hna. }
      assert (p ≠ AStr "DNQ") as Hn2.
      { intros ->. by rewrite (proj2 (py_eq_str _ _)) in Hdnq. }
      split; [split|split; [done|]].
      * discriminate.
      * intros [[= ->]|[= ->]]; done.
      * intros p' [= <-] _ _. done.
  - assert (length (low_n_list perl) ≠ 1%nat) as Hne.
    { intros Heq. unfold len in Hlen. rewrite Heq in Hlen. discriminate. }
    split; [split|split; [done|]].
    + discriminate.
    + intros [Heq|Heq]; rewrite Heq in Hne; done.
    + intros p Hp. by rewrite Hp in Hne.
Qed.

Lemma sentinel_points_check_witness :
  check_series_points Sample.spring Sample.bob Sample.perl_alice =
    Ok (Some ("Array Length", VAtom (AInt 1),
              VList [AFloat (5 # 2); AInt 1])).
Proof.
  apply (sentinel_points_check Sample.spring Sample.bob Sample.perl_alice).
  - reflexivity.
  - simpl. lia.
Defined.

(** C10, as stated, fails: carol's points and the reference hold the same
    five values in different orders; lengths and sorted forms agree, but
    each sum is rounded to the 28 digits of the decimal context as it is
    built, the two sums differ, and [Sum Count] is returned. *)
Lemma sum_count_is_returned : ¬ sum_count_never_returned.
Proof.
  intros Hnever.
  apply (Hnever Sample.huge Sample.carol Sample.perl_carol
           (VAtom (AInt 5)) (VAtom (AInt 5))).
  vm_compute. reflexivity.
Qed.

(** C10, amended: when the absolute values of the kernel's points add up to
    less than 10 ** 27, so that no sum needs more than the 28 digits of
    the decimal context, equal lengths and equal sorted forms give equal
    sums and the check passes; and the mismatch that [check_series_points]
    returns is then never [Sum Count]. *)
Theorem sum_count_unreachable (series : Series) (skip : Skipper)
    (perl : perl_skipper) (sp : SeriesPoints) :
  skipper_points_list series skip = Some sp →
  (abs_total (points_scored sp) < inject_Z (10 ^ 27))%Q →
  (∀ qs,
     existsb is_str (low_n_list perl) = false →
     mapM (λ p, Decimal p ≫= round1) (low_n_list perl) = Ok (RFin <$> qs) →
     length (points_scored sp) = length qs →
     Forall2 Qeq (sorted (points_scored sp)) (sorted qs) →
     Qeq_bool (sum (points_scored sp)) (sum qs) = true
     ∧ check_series_points series skip perl = Ok None)
  ∧ (∀ prm_name py_val perl_val,
       check_series_points series skip perl
         = Ok (Some (prm_name, py_val, perl_val)) →
       prm_name ≠ "Sum Count"
       ∧ ((prm_name ∈ ["Number/String"; "Point Count"])
          ∨ ∃ i : nat, prm_name = "Point[" +:+ pretty i +:+ "]")).
Proof.
  intros Hsp Hbound. split.
  - intros qs Hstr Hps Hlen Hsorted.
    pose proof (sums_agree _ _ Hsorted (rounded_list_tenths _ _ Hps) Hbound)
      as Hsum.
    split; [done|]. unfold check_series_points.
    rewrite Hsp, Hstr, Hps. cbn [mbind outcome_bind].
    assert ((len (points_scored sp) =? len (RFin <$> qs)) = true) as ->.
    { apply len_eqb. by rewrite length_fmap. }
    cbn [negb]. rewrite sorted_rounded_finite. cbn [mbind outcome_bind].
    assert (first_diff 0 (zip (sorted (points_scored sp)) (RFin <$> sorted qs))
            = None) as ->.
    { apply first_diff_None; [by rewrite !sorted_length|done]. }
    rewrite sum_rounded_finite. cbn [differs]. by rewrite Hsum.
  - intros prm_name py_val perl_val. unfold check_series_points. rewrite Hsp.
    destruct (existsb is_str (low_n_list perl)).
    { intros [= <- _ _]. split; [done|]. left. set_solver. }
    destruct (mapM _ (low_n_list perl)) as [ps|e] eqn:Hps;
      cbn [mbind outcome_bind]; [|done].
    destruct (len (points_scored sp) =? len ps) eqn:Hlen; cbn [negb].
    2:{ intros [= <- _ _]. split; [done|]. left. set_solver. }
    apply len_eqb in Hlen.
    destruct (sorted_rounded ps) as [sorted_ps|e] eqn:Hsorted;
      cbn [mbind outcome_bind]; [|done].
    destruct (first_diff 0 _) as [[[i a] b]|] eqn:Hdiff.
    { intros [= <- _ _]. split; [done|]. right. by exists i. }
    destruct (series_points_no_diff _ _ _ Hlen Hsorted Hdiff)
      as (qs & -> & Hall).
    rewrite sum_rounded_finite. cbn [differs].
    by rewrite (sums_agree _ _ Hall (rounded_list_tenths _ _ Hps) Hbound).
Qed.

Lemma sum_count_unreachable_witness :
  Qeq_bool (sum (points_scored Sample.alice_points))
           (sum [(25 # 10)%Q; (10 # 10)%Q]) = true
  ∧ check_series_points Sample.spring Sample.alice Sample.perl_alice = Ok None.
Proof.
  assert (abs_total (points_scored Sample.alice_points) < inject_Z (10 ^ 27))%Q
    as Hbound by (vm_compute; reflexivity).
  assert (mapM (λ p, Decimal p ≫= round1) (low_n_list Sample.perl_alice)
          = Ok (RFin <$> [(25 # 10)%Q; (10 # 10)%Q])) as Hps
    by (vm_compute; reflexivity).
  assert (Forall2 Qeq (sorted (points_scored Sample.alice_points))
                      (sorted [(25 # 10)%Q; (10 # 10)%Q])) as Hsorted
    by (vm_compute; repeat constructor).
  exact (proj1 (sum_count_unreachable Sample.spring Sample.alice
                  Sample.perl_alice Sample.alice_points eq_refl Hbound)
           [(25 # 10)%Q; (10 # 10)%Q] eq_refl Hps eq_refl Hsorted).
Defined.

(** ** Race-committee points *)

(** C8: the kernel reports race-committee points for bob and the reference
    has the string ["na"]: [Decimal("na")] raises
    [decimal.InvalidOperation]; no [RC Points] record is produced, the
    exception leaves [check_series_with_file] and ends [main_check]. *)
Theorem rc_points_na_raises :
  check_rc_points Sample.spring Sample.bob Sample.perl_bob_na
    = Raise InvalidOperation
  ∧ check_series_with_file Sample.spring Sample.dump_na = Raise InvalidOperation
  ∧ main_check None [(Sample.spring, Sample.loaded Sample.dump_na)]
    = {| events := []; how := Uncaught InvalidOperation |}.
Proof. repeat split; vm_compute; reflexivity. Qed.

(** ** Per-race results *)



(** C9: when the skipper is both in a race's points mapping and in its RC
    set, the kernel side of the comparison is the numeric points value:
    the race passes exactly when the reference equals that number, and a
    reference value ["RC"] is reported as a mismatch against the number. *)
Theorem points_take_precedence_over_rc (r : Race) (skip : Skipper) (d : Q) :
  get_skipper_race_points r !! skip = Some d →
  skip ∈ rc_skippers r →
  race_pts r skip = ADec d
  ∧ (∀ perl i, race_agrees r skip perl i ↔
       py_eq (ADec d) (default ANone (race perl !! (Z.of_nat i + 1))) = true)
  ∧ (∀ i rs perl,
       race_loop i (r :: rs) skip perl =
         if py_eq (ADec d) (default ANone (race perl !! (Z.of_nat i + 1)))
         then race_loop (S i) rs skip perl
         else Some ("Race[" +:+ pretty (Z.of_nat i + 1) +:+ "]",
                    VAtom (ADec d),
                    VAtom (default ANone (race perl !! (Z.of_nat i + 1)))))
  ∧ (∀ series perl, races series = [r] →
       race perl !! 1 = Some (AStr "RC") →
       check_race_results series skip perl =
         Ok (Some ("Race[1]", VAtom (ADec d), VAtom (AStr "RC")))).
Proof.
  intros Hpts Hrc.
  assert (race_pts r skip = ADec d) as Hk.
  { unfold race_pts. by rewrite Hpts. }
  split; [done|]. split; [|split].
  - intros perl i. rewrite race_agrees_iff, race_pts_perl_default. by rewrite Hk.
  - intros i rs perl.
    by rewrite race_loop_cons, race_pts_perl_default, Hk.
  - intros series perl Hraces Href. unfold check_race_results.
    rewrite Hraces, race_loop_cons, race_pts_perl_default, Hk.
    change (Z.of_nat 0 + 1) with 1. rewrite Href. reflexivity.
Qed.

Lemma points_take_precedence_over_rc_witness :
  race_pts Sample.race_both Sample.alice = ADec 2.
Proof.
  apply (points_take_precedence_over_rc Sample.race_both Sample.alice 2%Q).
  - reflexivity.
  - vm_compute. reflexivity.
Defined.

(** ** The exit of [main_check] *)

(** C2, as stated, fails: the dump of the first series has no entry for
    bob, the lookup raises [KeyError], and the run ends there with an
    uncaught exception: not by [sys.exit(1)], before the second series is
    attempted, and with nothing printed. *)
Lemma exit_as_specified_fails : ¬ exit_as_specified Sample.short_then_bad.
Proof.
  intros [_ Hfail].
  destruct Hfail as [Hhow _].
  - intros Hall. apply Forall_cons in Hall as [(_ & _ & dump & Hdump & Hcheck) _].
    injection Hdump as <-. vm_compute in Hcheck. discriminate Hcheck.
  - vm_compute in Hhow. discriminate Hhow.
Qed.

(** C2, amended: [main_check] ends with status 0 exactly when the base
    directory is there or can be made and every series passes; and when
    no exception is raised in the turn of any series (by the set-up of the
    subprocess, the decoding of its standard error, the loading of its
    dump or a check), a run in which some series fails ends by
    [sys.exit(1)] after the loop over all series, with the lines of every
    series printed. *)
Theorem main_check_exit (mkdir : option exn) (db : list (Series * perl_run)) :
  (exit_status (main_check mkdir db) = 0 ↔
     mkdir = None ∧ Forall series_passes db)
  ∧ (Forall series_completes db → exit_as_specified db).
Proof.
  split; [by rewrite exit_status_zero, main_loop_passes|].
  intros Hall. split.
  { rewrite exit_status_zero, main_loop_passes. intuition congruence. }
  intros Hfail.
  destruct (main_loop_completes db Hall) as [Hout [b Hb]].
  assert (b = false) as ->.
  { destruct b; [|done]. destruct Hfail. by apply main_loop_passes. }
  unfold main_check. destruct (main_loop db true []) as [out res].
  simpl in Hout, Hb. by subst.
Qed.

Lemma main_check_exit_witness : exit_as_specified Sample.crashed_then_bad.
Proof.
  apply (proj2 (main_check_exit None Sample.crashed_then_bad)).
  apply Forall_cons. split.
  - split; [reflexivity|]. left. split; [discriminate|].
    eexists. vm_compute. reflexivity.
  - apply Forall_cons. split; [|apply Forall_nil_2].
    split; [reflexivity|]. right. split; [reflexivity|].
    eexists. eexists. split; [reflexivity|]. vm_compute. reflexivity.
Defined.




(** ** Rounding before comparison *)

(** C4, as stated, fails for the per-race values: the kernel has 1.0 for
    alice in race 1 and the reference the float 1.03125, which
    [round(Decimal(.), 1)] takes to 1.0, yet [check_race_results] compares
    the unrounded 1.03125 and reports [Race[1]]. *)
Lemma race_points_not_rounded : ¬ race_points_rounded_first.
Proof.
  intros Hclaim.
  specialize (Hclaim Sample.race1 Sample.alice Sample.perl_alice_fine
                1%Q (10 # 10)%Q (AFloat (33 # 32)) (DFin (33 # 32))
                eq_refl eq_refl eq_refl eq_refl eq_refl).
  vm_compute in Hclaim. discriminate Hclaim.
Qed.

(** C4, amended: only the elements of the reference [low_n_list] and, when
    the kernel has RC points, the reference [rc_points] are rounded to one
    decimal place as decimals before they are compared. An exception of
    [Decimal] or [round] leaves the check. Otherwise the series-points
    check passes exactly when the rounded reference values are all
    finite and have the length, the sorted form and the sum of the
    kernel's list, and a mismatch carries the lengths or the rounded
    value; the RC-points check compares the kernel's value with the
    rounded reference value and reports that rounded value. The per-race
    values and the two counts are compared as they are, without
    rounding. *)
Theorem reference_values_rounded (series : Series) (skip : Skipper)
    (perl : perl_skipper) :
  (∀ sp,
     skipper_points_list series skip = Some sp →
     existsb is_str (low_n_list perl) = false →
     (∀ e, mapM (λ p, Decimal p ≫= round1) (low_n_list perl) = Raise e →
        check_series_points series skip perl = Raise e)
     ∧ (∀ ps, mapM (λ p, Decimal p ≫= round1) (low_n_list perl) = Ok ps →
          (check_series_points series skip perl = Ok None ↔
             ∃ qs, ps = RFin <$> qs
               ∧ length (points_scored sp) = length qs
               ∧ Forall2 Qeq (sorted (points_scored sp)) (sorted qs)
               ∧ Qeq_bool (sum (points_scored sp)) (sum qs) = true)
          ∧ (∀ m, check_series_points series skip perl = Ok (Some m) →
               m = ("Point Count", VAtom (AInt (len (points_scored sp))),
                    VAtom (AInt (len ps)))
               ∨ (∃ (i : nat) a b sorted_ps,
                     sorted_rounded ps = Ok sorted_ps
                     ∧ m = ("Point[" +:+ pretty i +:+ "]", VAtom (ADec a),
                            VAtom (rdec_atom b))
                     ∧ sorted (points_scored sp) !! i = Some a
                     ∧ sorted_ps !! i = Some b
                     ∧ differs a b = true)
               ∨ (m = ("Sum Count", VAtom (AInt (len (points_scored sp))),
                       VAtom (AInt (len ps)))
                  ∧ differs (sum (points_scored sp)) (sum_rounded ps)
                    = true))))
  ∧ (∀ d,
       get_skipper_rc_points series skip = Some d →
       (∀ e, Decimal (rc_points perl) ≫= round1 = Raise e →
          check_rc_points series skip perl = Raise e)
       ∧ (∀ r, Decimal (rc_points perl) ≫= round1 = Ok r →
            check_rc_points series skip perl =
              if differs d r
              then Ok (Some ("RC Points", VAtom (ADec d), VAtom (rdec_atom r)))
              else Ok None))
  ∧ (check_race_results series skip perl = Ok None ↔
       ∀ i r, races series !! i = Some r →
         py_eq (race_pts r skip) (race_pts_perl perl i) = true)
  ∧ (check_finished_race_count series skip perl = Ok None ↔
       py_eq (AInt (count_ones
                      (filter (λ r, skip ∈ dom (get_skipper_race_points r))
                              (races series))))
             (finished_races perl) = true)
  ∧ (check_rc_race_count series skip perl = Ok None ↔
       py_eq (AInt (count_ones
                      (filter (λ r, skip ∈ rc_skippers r) (races series))))
             (rced_races perl) = true).
Proof.
  split; [|split; [|split; [|split]]].
  - intros sp Hsp Hstr. unfold check_series_points. rewrite Hsp, Hstr.
    split; [by intros e ->|].
    intros ps ->. cbn [mbind outcome_bind].
    destruct (len (points_scored sp) =? len ps) eqn:Hlen; cbn [negb].
    2:{ split; [|intros m [= <-]; by left].
        split; [discriminate|]. intros (qs & -> & Hl & _).
        assert ((len (points_scored sp) =? len (RFin <$> qs)) = true) as Hl'.
        { apply len_eqb. by rewrite length_fmap. }
        congruence. }
    apply len_eqb in Hlen.
    destruct (sorted_rounded ps) as [sorted_ps|e] eqn:Hsorted;
      cbn [mbind outcome_bind].
    2:{ split; [|discriminate]. split; [discriminate|].
        intros (qs & -> & _). rewrite sorted_rounded_finite in Hsorted.
        discriminate Hsorted. }
    destruct (first_diff 0 _) as [[[i a] b]|] eqn:Hdiff.
    { split.
      - split; [discriminate|]. intros (qs & -> & Hl & Hall & _).
        rewrite sorted_rounded_finite in Hsorted. injection Hsorted as <-.
        apply (first_diff_None 0) in Hall; [congruence|].
        by rewrite !sorted_length.
      - intros m [= <-]. right. left. exists i, a, b, sorted_ps.
        apply first_diff_lookup in Hdiff. by destruct Hdiff as (? & ? & ?). }
    destruct (series_points_no_diff _ _ _ Hlen Hsorted Hdiff)
      as (qs & -> & Hall).
    rewrite sum_rounded_finite. cbn [differs].
    rewrite length_fmap in Hlen.
    destruct (Qeq_bool (sum (points_scored sp)) (sum qs)) eqn:Hsum;
      cbn [negb].
    + split; [|discriminate]. split; [|done]. intros _. by exists qs.
    + split.
      * split; [discriminate|]. intros (qs' & Heq & _ & _ & Hsum').
        apply (f_equal finite_values) in Heq.
        rewrite !finite_values_fmap in Heq. congruence.
      * intros m [= <-]. right. by right.
  - intros d Hd. unfold check_rc_points. rewrite Hd.
    split; [by intros e ->|]. intros r ->. cbn [mbind outcome_bind].
    by destruct (differs d r).
  - unfold check_race_results.
    pose proof (race_loop_spec 0 (races series) skip perl) as Hspec.
    destruct (race_loop 0 (races series) skip perl) as [m|].
    + split; [discriminate|]. intros Hall.
      destruct Hspec as (j & r & Hj & _ & Hne & _). destruct Hne.
      apply race_agrees_iff. by apply Hall.
    + split; [|done]. intros _ i r Hi. apply race_agrees_iff.
      by apply (Hspec i r).
  - unfold check_finished_race_count, py_ne.
    by destruct (py_eq _ (finished_races perl)).
  - unfold check_rc_race_count, py_ne.
    by destruct (py_eq _ (rced_races perl)).
Qed.

Lemma reference_values_rounded_witness :
  (∃ qs, [RFin (25 # 10); RFin (10 # 10)] = RFin <$> qs
     ∧ length [1%Q; (5 # 2)%Q] = length qs
     ∧ Forall2 Qeq (sorted [1%Q; (5 # 2)%Q]) (sorted qs)
     ∧ Qeq_bool (sum [1%Q; (5 # 2)%Q]) (sum qs) = true)
  ∧ check_rc_points Sample.spring Sample.bob Sample.perl_bob = Ok None.
Proof.
  split.
  - apply (proj1 (proj2 (proj1 (reference_values_rounded Sample.spring
                                  Sample.alice Sample.perl_alice)
                           {| points_scored := [1%Q; (5 # 2)%Q] |}
                           eq_refl eq_refl)
                    [RFin (25 # 10); RFin (10 # 10)] eq_refl)).
    reflexivity.
  - apply (proj2 (proj1 (proj2 (reference_values_rounded Sample.spring
                                  Sample.bob Sample.perl_bob))
                    1%Q eq_refl)
             (RFin (10 # 10)) eq_refl).
Defined.


(** * Further properties of the harness *)

(** ** The two counting checks *)

Lemma count_ones_length {A} (l : list A) : count_ones l = len l.
Proof.
  unfold count_ones, len.
  assert (∀ a, fold_left Z.add ((λ _ : A, 1) <$> l) a = a + Z.of_nat (length l))
    as H; [|by rewrite H].
  induction l as [|x l IH]; intros a; simpl fold_left.
  - simpl. lia.
  - rewrite IH. simpl length. lia.
Qed.

(** How an integer count compares with a reference value. *)
Lemma py_ne_count (n : Z) (a : atom) :
  match a with
  | AInt z => py_ne (AInt n) a = false ↔ z = n
  | AFloat q | ADec q => py_ne (AInt n) a = false ↔ (q == inject_Z n)%Q
  | AFloatInf _ | AFloatNaN | ADecNaN | AStr _ | ANone =>
      py_ne (AInt n) a = true
  end.
Proof.
  unfold py_ne. destruct a as [z|q|neg| |q| |s|]; simpl; try done;
    rewrite negb_false_iff, Qeq_bool_iff.
  - unfold Qeq. simpl. lia.
  - split; intros H; by rewrite H.
  - split; intros H; by rewrite H.
Qed.

(** X1: the finished-count check counts the races whose points mapping
    holds the skipper and compares the count with the reference value by
    Python's [==]: an integer passes when it is that count, a float when
    its value is, an infinite float, a NaN, a string or null never; a
    mismatch is reported as [Count] with the count and the raw reference
    value. *)
Theorem finished_count_check (series : Series) (skip : Skipper)
    (perl : perl_skipper) :
  let n := Z.of_nat (length (filter
             (λ r, skip ∈ dom (get_skipper_race_points r)) (races series))) in
  let res := check_finished_race_count series skip perl in
  (res = Ok None
   ∨ res = Ok (Some ("Count", VAtom (AInt n), VAtom (finished_races perl))))
  ∧ match finished_races perl with
    | AInt z => res = Ok None ↔ z = n
    | AFloat q | ADec q => res = Ok None ↔ (q == inject_Z n)%Q
    | AFloatInf _ | AFloatNaN | ADecNaN | AStr _ | ANone => res ≠ Ok None
    end.
Proof.
  intros n res. subst res. unfold check_finished_race_count.
  rewrite count_ones_length. fold n. unfold len. fold n.
  pose proof (py_ne_count n (finished_races perl)) as Hne.
  destruct (py_ne (AInt n) (finished_races perl)) eqn:Hpy.
  - split; [by right|].
    destruct (finished_races perl); try done;
      (split; [discriminate|]); intros H; apply Hne in H; discriminate.
  - split; [by left|].
    destruct (finished_races perl); try congruence;
      (split; [intros _; by apply Hne|done]).
Qed.

Lemma finished_count_check_witness :
  check_finished_race_count Sample.spring Sample.alice Sample.perl_alice
    = Ok None.
Proof.
  destruct (finished_count_check Sample.spring Sample.alice Sample.perl_alice)
    as [_ Hint].
  cbn [finished_races Sample.perl_alice] in Hint. apply Hint. reflexivity.
Defined.

(** X2: the RC-count check counts the races whose RC set holds the
    skipper and compares the count with the reference [rced_races] in the
    same way; a mismatch is reported as [RC Count]. *)
Theorem rc_count_check (series : Series) (skip : Skipper)
    (perl : perl_skipper) :
  let n := Z.of_nat (length (filter
             (λ r, skip ∈ rc_skippers r) (races series))) in
  let res := check_rc_race_count series skip perl in
  (res = Ok None
   ∨ res = Ok (Some ("RC Count", VAtom (AInt n), VAtom (rced_races perl))))
  ∧ match rced_races perl with
    | AInt z => res = Ok None ↔ z = n
    | AFloat q | ADec q => res = Ok None ↔ (q == inject_Z n)%Q
    | AFloatInf _ | AFloatNaN | ADecNaN | AStr _ | ANone => res ≠ Ok None
    end.
Proof.
  intros n res. subst res. unfold check_rc_race_count.
  rewrite count_ones_length. unfold len. fold n.
  pose proof (py_ne_count n (rced_races perl)) as Hne.
  destruct (py_ne (AInt n) (rced_races perl)) eqn:Hpy.
  - split; [by right|].
    destruct (rced_races perl); try done;
      (split; [discriminate|]); intros H; apply Hne in H; discriminate.
  - split; [by left|].
    destruct (rced_races perl); try congruence;
      (split; [intros _; by apply Hne|done]).
Qed.

Lemma rc_count_check_witness :
  check_rc_race_count Sample.spring Sample.bob Sample.perl_bob = Ok None.
Proof.
  destruct (rc_count_check Sample.spring Sample.bob Sample.perl_bob)
    as [_ Hint].
  cbn [rced_races Sample.perl_bob] in Hint. apply Hint. reflexivity.
Defined.

(** ** The verdict of [check_series_with_file] *)

Lemma mapM_outcome_Ok {A B} (f : A → outcome B) (l : list A) (rs : list B) :
  mapM f l = Ok rs ↔ Forall2 (λ x r, f x = Ok r) l rs.
Proof.
  revert rs. induction l as [|x l IH]; intros rs; cbn [mapM].
  - split.
    + intros [= <-]. constructor.
    + by intros ->%Forall2_nil_inv_l.
  - destruct (f x) as [y|e] eqn:Hx; simpl.
    + destruct (mapM f l) as [k|e] eqn:Hl; simpl; unfold mret, outcome_ret.
      * split.
        -- intros [= <-]. constructor; [done|]. by apply IH.
        -- intros (r & k' & Hr & Hk & ->)%Forall2_cons_inv_l.
           apply IH in Hk. congruence.
      * split; [done|].
        intros (r & k' & _ & Hk & _)%Forall2_cons_inv_l.
        apply IH in Hk. discriminate.
    + split; [done|].
      intros (r & k' & Hr & _)%Forall2_cons_inv_l. congruence.
Qed.

Lemma reports_elem_of {A B} (f : A → outcome (option B)) (l : list A)
    (rs : list (option B)) (y : B) :
  Forall2 (λ x r, f x = Ok r) l rs →
  y ∈ omap id rs ↔ ∃ x, x ∈ l ∧ f x = Ok (Some y).
Proof.
  induction 1 as [|x r l rs Hx _ IH]; simpl.
  - split; [by intros ?%elem_of_nil|]. by intros (x & ?%elem_of_nil & _).
  - destruct r as [z|]; simpl.
    + rewrite elem_of_cons, IH. split.
      * intros [->|(x' & Hin & Hx')].
        -- exists x. split; [by left|done].
        -- exists x'. split; [by right|done].
      * intros (x' & [->|Hin]%elem_of_cons & Hx').
        -- left. congruence.
        -- right. eauto.
    + rewrite IH. split.
      * intros (x' & Hin & Hx'). exists x'. split; [by right|done].
      * intros (x' & [->|Hin]%elem_of_cons & Hx'); [congruence|eauto].
Qed.

Lemma skipper_report_Some (series : Series)
    (perl_output : gmap string perl_skipper) (skip : Skipper)
    (o : option error_output) :
  skipper_report series perl_output skip = Ok o ↔
  ∃ perl res, perl_output !! identifier skip = Some perl
    ∧ run_checks check_functions series skip perl = Ok res
    ∧ o = report skip <$> res.
Proof.
  split.
  - unfold skipper_report. intros H.
    destruct (perl_output !! identifier skip) as [perl|] eqn:Hp; [|done].
    rewrite <- run_checks_first_mismatch in H.
    destruct (run_checks check_functions series skip perl) as [res|e] eqn:Hr;
      [|done].
    injection H as <-. by exists perl, res.
  - intros (perl & res & Hp & Hr & ->). unfold skipper_report.
    by rewrite Hp, <- run_checks_first_mismatch, Hr.
Qed.

(** X3: [check_series_with_file] returns true, printing nothing, exactly
    when every skipper of the series has an entry in the dump and passes
    all five checks. When it returns false it has printed the series
    header followed by one line per failing skipper: every line is the
    first mismatch of a skipper of the series, and every skipper with a
    mismatch has its line. *)
Theorem series_verdict (series : Series)
    (perl_output : gmap string perl_skipper) :
  (check_series_with_file series perl_output = Ok (true, []) ↔
     Forall (λ skip, ∃ perl,
               perl_output !! identifier skip = Some perl
               ∧ run_checks check_functions series skip perl = Ok None)
            (get_all_skippers series))
  ∧ (∀ printed,
       check_series_with_file series perl_output = Ok (false, printed) →
       ∃ errs,
         printed = LText ("Series " +:+ name series) :: (LError <$> errs)
         ∧ errs ≠ []
         ∧ ∀ err, err ∈ errs ↔
             ∃ skip perl m,
               skip ∈ get_all_skippers series
               ∧ perl_output !! identifier skip = Some perl
               ∧ run_checks check_functions series skip perl = Ok (Some m)
               ∧ err = report skip m).
Proof.
  unfold check_series_with_file. rewrite skipper_loop_mapM.
  destruct (mapM (skipper_report series perl_output) (get_all_skippers series))
    as [rs|e] eqn:Hrs; cbn [mbind outcome_bind fmap outcome_fmap].
  - apply mapM_outcome_Ok in Hrs.
    assert (∀ err, err ∈ omap id rs ↔
              ∃ skip perl m,
                skip ∈ get_all_skippers series
                ∧ perl_output !! identifier skip = Some perl
                ∧ run_checks check_functions series skip perl = Ok (Some m)
                ∧ err = report skip m) as Helem.
    { intros err. rewrite (reports_elem_of _ _ _ _ Hrs). split.
      - intros (skip & Hin & (perl & res & Hp & Hr & Ho)%skipper_report_Some).
        destruct res as [m|]; [|done]. injection Ho as ->.
        by exists skip, perl, m.
      - intros (skip & perl & m & Hin & Hp & Hr & ->). exists skip.
        split; [done|]. apply skipper_report_Some. by exists perl, (Some m). }
    destruct (omap id rs) as [|err errs] eqn:Herrs.
    + split; [|discriminate]. split; [|done]. intros _.
      apply Forall_forall. intros skip Hin.
      pose proof Hin as [i Hi]%list_elem_of_lookup_1.
      destruct (Forall2_lookup_l _ _ _ i skip Hrs Hi) as (o & Ho & Hrep).
      apply skipper_report_Some in Hrep as (perl & res & Hp & Hr & ->).
      exists perl. split; [done|]. destruct res as [m|]; [|done].
      assert (report skip m ∈ @nil error_output) as Habs; [|by apply elem_of_nil in Habs].
      apply Helem. by exists skip, perl, m.
    + split.
      * split; [discriminate|]. intros Hall.
        assert (err ∈ err :: errs) as Hin by left.
        apply Helem in Hin as (skip & perl & m & Hin & Hp & Hr & _).
        rewrite Forall_forall in Hall.
        destruct (Hall skip Hin) as (perl' & Hp' & Hr').
        congruence.
      * intros printed [= <-]. exists (err :: errs). done.
  - split; [|discriminate]. split; [discriminate|]. intros Hall.
    assert (∃ rs, mapM (skipper_report series perl_output)
                    (get_all_skippers series) = Ok rs) as [rs Hrs'];
      [|congruence].
    clear Hrs. induction Hall as [|skip skips (perl & Hp & Hr) _ [rs IH]].
    + by exists [].
    + exists (None :: rs). cbn [mapM]. rewrite IH.
      replace (skipper_report series perl_output skip) with
        (Ok (None : option error_output)); [done|].
      symmetry. apply skipper_report_Some. by exists perl, None.
Qed.

Lemma series_verdict_witness :
  Forall (λ skip, ∃ perl,
            Sample.dump !! identifier skip = Some perl
            ∧ run_checks check_functions Sample.spring skip perl = Ok None)
         (get_all_skippers Sample.spring)
  ∧ ∃ errs,
      [LText "Series spring";
       LError {| err_skipper := "bob"; err_prm_name := "Count";
                 err_py_val := VAtom (AInt 1);
                 err_perl_val := VAtom (AInt 5) |}]
        = LText ("Series " +:+ name Sample.spring) :: (LError <$> errs)
      ∧ errs ≠ []
      ∧ ∀ err, err ∈ errs ↔
          ∃ skip perl m,
            skip ∈ get_all_skippers Sample.spring
            ∧ Sample.dump_bad !! identifier skip = Some perl
            ∧ run_checks check_functions Sample.spring skip perl = Ok (Some m)
            ∧ err = report skip m.
Proof.
  split.
  - apply (proj1 (proj1 (series_verdict Sample.spring Sample.dump))).
    vm_compute. reflexivity.
  - apply (proj2 (series_verdict Sample.spring Sample.dump_bad)).
    vm_compute. reflexivity.
Defined.

Lemma skipper_loop_raise (series : Series)
    (perl_output : gmap string perl_skipper) (pre post : list Skipper)
    (skip : Skipper) (e : exn) (errs : list error_output) :
  Forall (λ k, ∃ perl res,
            perl_output !! identifier k = Some perl
            ∧ run_checks check_functions series k perl = Ok res) pre →
  (perl_output !! identifier skip = None ∧ e = KeyError
   ∨ ∃ perl, perl_output !! identifier skip = Some perl
       ∧ run_checks check_functions series skip perl = Raise e) →
  skipper_loop check_functions (pre ++ skip :: post) series perl_output errs
    = Raise e.
Proof.
  intros Hpre Hskip. revert errs.
  induction Hpre as [|k pre (perl & res & Hp & Hr) _ IH]; intros errs.
  - cbn [app skipper_loop].
    destruct Hskip as [[-> ->]|(perl & -> & ->)]; done.
  - cbn [app skipper_loop]. rewrite Hp, Hr. apply IH.
Qed.

(** X4: the skipper loop has no exception handling. When a skipper has no
    entry in the dump ([KeyError]) or one of its checks raises, and the
    skippers before it were checked without an exception,
    [check_series_with_file] raises that exception: the mismatches found
    for the earlier skippers are not printed and the later skippers are not
    checked. *)
Theorem series_check_raises (series : Series)
    (perl_output : gmap string perl_skipper) (pre post : list Skipper)
    (skip : Skipper) (e : exn) :
  get_all_skippers series = pre ++ skip :: post →
  Forall (λ k, ∃ perl res,
            perl_output !! identifier k = Some perl
            ∧ run_checks check_functions series k perl = Ok res) pre →
  (perl_output !! identifier skip = None ∧ e = KeyError
   ∨ ∃ perl, perl_output !! identifier skip = Some perl
       ∧ run_checks check_functions series skip perl = Raise e) →
  check_series_with_file series perl_output = Raise e.
Proof.
  intros Hskips Hpre Hskip. unfold check_series_with_file.
  by rewrite Hskips, (skipper_loop_raise _ _ _ _ _ e [] Hpre Hskip).
Qed.

Lemma series_check_raises_witness :
  check_series_with_file Sample.spring Sample.dump_short = Raise KeyError.
Proof.
  apply (series_check_raises Sample.spring Sample.dump_short
           [Sample.alice] [] Sample.bob KeyError eq_refl).
  - apply Forall_cons. split; [|apply Forall_nil_2].
    exists Sample.perl_alice, None. split; vm_compute; reflexivity.
  - left. split; vm_compute; reflexivity.
Defined.

(** ** The run of [main_check] *)

(** X5: the loop of [main_check] has no exception handling either. When
    the series before it completed and the turn of a series raises, the
    run ends with that exception uncaught, without the success line and
    without anything of the later series. If the exception comes from
    the set-up of the subprocess, from loading the dump or from the check,
    what has been printed is exactly the lines of the earlier series; if
    it comes from decoding the standard error of a failed subprocess, the
    [Process Error] header of the series has been printed as well. *)
Theorem main_check_uncaught (pre post : list (Series * perl_run))
    (s : Series) (proc : perl_run) (e : exn) :
  Forall series_completes pre →
  ((setup proc = Some e
    ∨ setup proc = None ∧ returncode proc = 0
      ∧ (dumper proc = Raise e
         ∨ ∃ dump, dumper proc = Ok dump
             ∧ check_series_with_file s dump = Raise e)) →
   main_check None (pre ++ (s, proc) :: post)
     = {| events := concat (series_events <$> pre); how := Uncaught e |})
  ∧ (setup proc = None → returncode proc ≠ 0 →
     decode_utf8 (stderr proc) = Raise e →
     main_check None (pre ++ (s, proc) :: post)
       = {| events := concat (series_events <$> pre)
                        ++ [Stderr (LText (name s +:+ " Process Error!"))];
            how := Uncaught e |}).
Proof.
  intros Hpre. split.
  - intros Hraise.
    assert (turn s proc = ([], Raise e)) as Hturn.
    { unfold turn.
      destruct Hraise as [->|(-> & -> & [->|(dump & -> & ->)])]; done. }
    unfold main_check.
    by rewrite (main_loop_raises pre post s proc [] e true [] Hpre Hturn),
               app_nil_r.
  - intros Hsetup Hrc Hdecode.
    assert (turn s proc
            = ([Stderr (LText (name s +:+ " Process Error!"))], Raise e))
      as Hturn.
    { unfold turn. by rewrite Hsetup, (proj2 (Z.eqb_neq _ _) Hrc), Hdecode. }
    unfold main_check.
    by rewrite (main_loop_raises pre post s proc _ e true [] Hpre Hturn).
Qed.

Lemma main_check_uncaught_witness :
  main_check None Sample.crashed_then_short
    = {| events := concat (series_events
                             <$> [(Sample.spring, Sample.crashed_run)]);
         how := Uncaught KeyError |}.
Proof.
  apply (main_check_uncaught [(Sample.spring, Sample.crashed_run)] []
           Sample.summer (Sample.loaded Sample.dump_short) KeyError).
  - apply Forall_cons. split; [|apply Forall_nil_2].
    split; [reflexivity|]. left. split; [discriminate|].
    eexists. vm_compute. reflexivity.
  - right. split; [reflexivity|]. split; [reflexivity|]. right.
    exists Sample.dump_short. split; [reflexivity|]. vm_compute. reflexivity.
Defined.

Lemma printed_not_all_pass (series : Series)
    (perl_output : gmap string perl_skipper) (b : bool) (printed : list line) :
  check_series_with_file series perl_output = Ok (b, printed) →
  LText "All Pass!" ∉ printed.
Proof.
  unfold check_series_with_file.
  destruct (skipper_loop _ _ _ _ _) as [[|err errs]|e]; simpl; [| |done].
  - intros [= <- <-]. apply not_elem_of_nil.
  - intros [= <- <-]. rewrite elem_of_cons. intros [Heq|Hin]; [discriminate|].
    change (LText "All Pass!" ∈ LError <$> (err :: errs)) in Hin.
    apply list_elem_of_fmap in Hin as (? & ? & _). discriminate.
Qed.

Lemma turn_not_all_pass (s : Series) (proc : perl_run) :
  Stdout (LText "All Pass!") ∉ (turn s proc).1.
Proof.
  unfold turn. destruct (setup proc); [apply not_elem_of_nil|].
  destruct (negb (returncode proc =? 0)).
  - destruct (decode_utf8 (stderr proc)) as [text|e]; cbn [fst].
    + rewrite elem_of_cons. intros [Heq|Hin]; [done|].
      apply list_elem_of_fmap in Hin as (? & ? & _). discriminate.
    + by intros ?%list_elem_of_singleton.
  - destruct (dumper proc) as [dump|e]; [|apply not_elem_of_nil].
    destruct (check_series_with_file s dump) as [[b printed]|e] eqn:Hcheck;
      [|apply not_elem_of_nil].
    pose proof (printed_not_all_pass _ _ _ _ Hcheck) as Hprinted.
    cbn [fst]. rewrite elem_of_app.
    intros [(l & [= <-] & Hl)%list_elem_of_fmap|Hin]; [done|].
    destruct b; [by apply elem_of_nil in Hin|].
    apply list_elem_of_singleton in Hin. discriminate.
Qed.

Lemma main_loop_not_all_pass (db : list (Series * perl_run)) :
  Stdout (LText "All Pass!") ∉ (main_loop db true []).1.
Proof.
  induction db as [|[s proc] db IH]; [apply not_elem_of_nil|].
  cbn [main_loop]. pose proof (turn_not_all_pass s proc) as Hturn.
  destruct (turn s proc) as [printed [success|e]]; cbn [fst] in *.
  - rewrite main_loop_from. cbn [fst]. rewrite !elem_of_app.
    intros [[Hnil|Hin]|Hin]; [by apply elem_of_nil in Hnil|done|done].
  - rewrite elem_of_app.
    intros [Hnil|Hin]; [by apply elem_of_nil in Hnil|done].
Qed.

(** X6: a run in which every series passes prints the single line
    [All Pass!] and nothing else, on either stream; a run that ends with a
    non-zero status never prints that line. *)
Theorem all_pass_line (mkdir : option exn) (db : list (Series * perl_run)) :
  (exit_status (main_check mkdir db) = 0 ↔
     events (main_check mkdir db) = [Stdout (LText "All Pass!")])
  ∧ (Stdout (LText "All Pass!") ∈ events (main_check mkdir db) ↔
       exit_status (main_check mkdir db) = 0).
Proof.
  pose proof (main_loop_not_all_pass db) as Hnot.
  assert (exit_status (main_check mkdir db) = 0 →
          events (main_check mkdir db) = [Stdout (LText "All Pass!")]) as Hzero.
  { intros Hall. pose proof Hall as [-> Hres]%exit_status_zero.
    rewrite exit_status_zero, main_loop_passes in Hall.
    destruct Hall as [_ Hall].
    destruct (main_loop_completes db (passes_completes db Hall)) as [Hout _].
    rewrite (passing_series_prints_nothing db Hall) in Hout.
    unfold main_check. destruct (main_loop db true []) as [out res].
    simpl in Hout, Hres. by subst. }
  assert (Stdout (LText "All Pass!") ∈ events (main_check mkdir db) →
          exit_status (main_check mkdir db) = 0) as Hin.
  { unfold exit_status, main_check. destruct mkdir as [e|]; simpl.
    { by intros ?%elem_of_nil. }
    destruct (main_loop db true []) as [out [[]|e]]; simpl in *; done. }
  split; split; [done| |done|].
  - intros Heq. apply Hin. rewrite Heq. by left.
  - intros Hall. rewrite (Hzero Hall). by left.
Qed.

Lemma all_pass_line_witness :
  events (main_check None [(Sample.spring, Sample.ok_run)])
    = [Stdout (LText "All Pass!")].
Proof.
  apply (proj1 (all_pass_line None [(Sample.spring, Sample.ok_run)])).
  vm_compute. reflexivity.
Defined.

(** ** Exceptions of the checks *)

Lemma mapM_outcome_Raise {A B} (f : A → outcome B) (l : list A) (e : exn) :
  mapM f l = Raise e ↔ fails_first f l e.
Proof.
  unfold fails_first. induction l as [|x l IH]; cbn [mapM].
  - split; [done|]. intros (pre & p & post & Hl & _). by destruct pre.
  - destruct (f x) as [y|e'] eqn:Hx; cbn [mbind outcome_bind].
    + assert (mapM f l ≫= (λ k, mret (y :: k)) = Raise e ↔ mapM f l = Raise e)
        as ->.
      { destruct (mapM f l); cbn [mbind outcome_bind]; [|done].
        split; discriminate. }
      rewrite IH. split.
      * intros (pre & p & post & -> & Hpre & Hp).
        exists (x :: pre), p, post. split; [done|]. split; [|done].
        constructor; eauto.
      * intros (pre & p & post & Hl & Hpre & Hp).
        destruct pre as [|x' pre]; simplify_eq/=; [congruence|].
        apply Forall_cons in Hpre as [_ Hpre]. by exists pre, p, post.
    + split.
      * intros [= <-]. exists [], x, l. split; [done|]. split; [constructor|done].
      * intros (pre & p & post & Hl & Hpre & Hp).
        destruct pre as [|x' pre]; simplify_eq/=; [congruence|].
        apply Forall_cons in Hpre as [[r Hr] _]. congruence.
Qed.

Lemma Decimal_Raise (p : atom) (e : exn) :
  Decimal p = Raise e ↔
  p = ANone ∧ e = TypeError
  ∨ (∃ s, p = AStr s ∧ DecimalLit.parse s = None) ∧ e = InvalidOperation.
Proof.
  destruct p as [z|q|neg| |q| |s|]; cbn [Decimal];
    try (split; [done|]; intros [[? _]|[(? & ? & _) _]]; discriminate).
  - destruct (DecimalLit.parse s) as [d|] eqn:Hparse.
    + split; [done|].
      intros [[? _]|[(s' & [= <-] & Hs') _]]; congruence.
    + split.
      * intros [= <-]. right. split; [by exists s|done].
      * intros [[? _]|[_ ->]]; done.
  - split.
    + intros [= <-]. by left.
    + intros [[_ ->]|[(? & ? & _) _]]; done.
Qed.

Lemma round1_Raise (d : dec) (e : exn) :
  round1 d = Raise e ↔ unroundable d ∧ e = InvalidOperation.
Proof.
  destruct d as [q|neg|[]]; cbn [round1 unroundable].
  - destruct (10 ^ 28 <=? Z.abs (round_half_even (q * 10))) eqn:Hbig.
    + apply Z.leb_le in Hbig. split; [by intros [= <-]|by intros [_ ->]].
    + apply Z.leb_gt in Hbig. split; [done|]. intros [? _]. lia.
  - split; [by intros [= <-]|by intros [_ ->]].
  - split; [by intros [= <-]|by intros [_ ->]].
  - split; [done|]. by intros [? _].
Qed.

Lemma rounded_Raise (p : atom) (e : exn) :
  Decimal p ≫= round1 = Raise e →
  p = ANone ∧ e = TypeError ∨ e = InvalidOperation.
Proof.
  destruct (Decimal p) as [d|e'] eqn:Hp; cbn [mbind outcome_bind].
  - intros [_ ->]%round1_Raise. by right.
  - intros [= ->]. apply Decimal_Raise in Hp as [[-> ->]|[_ ->]]; eauto.
Qed.

Lemma finite_values_None (ps : list rdec) :
  finite_values ps = None ↔ RNaN ∈ ps.
Proof.
  unfold finite_values. induction ps as [|[q|] ps IH]; cbn [mapM].
  - split; [done|]. by intros ?%elem_of_nil.
  - rewrite elem_of_cons. simpl.
    destruct (mapM _ ps) as [qs|]; simpl.
    + split; [done|]. intros [?|Hin]; [done|]. by apply IH in Hin.
    + split; [|done]. intros _. right. by apply IH.
  - split; [|done]. intros _. by left.
Qed.

Lemma sorted_rounded_Raise (ps : list rdec) (e : exn) :
  sorted_rounded ps = Raise e ↔
  RNaN ∈ ps ∧ (2 ≤ length ps)%nat ∧ e = InvalidOperation.
Proof.
  unfold sorted_rounded. rewrite <- finite_values_None.
  destruct (finite_values ps) as [qs|].
  - split; [done|]. by intros [? _].
  - destruct (2 <=? length ps)%nat eqn:Hlen.
    + apply Nat.leb_le in Hlen. split; [by intros [= <-]|by intros (_ & _ & ->)].
    + apply Nat.leb_gt in Hlen. split; [done|]. intros (_ & ? & _). lia.
Qed.

(** X7: the series-points check raises exactly when the kernel result is
    a list, the reference [low_n_list] holds no string, and either
    [round(Decimal(p), 1)] raises for an element (the exception of the
    first such element), or every element is converted, the lengths
    agree, there are at least two elements and one of them is a NaN,
    which [sorted] cannot order ([decimal.InvalidOperation]). The
    exception is a [TypeError], for a null element, or a
    [decimal.InvalidOperation]; in particular the access
    [series_points_perl[0]] of the DNQ/na branch is never out of range. *)
Theorem series_points_raises (series : Series) (skip : Skipper)
    (perl : perl_skipper) (e : exn) :
  (check_series_points series skip perl = Raise e ↔
     ∃ sp, skipper_points_list series skip = Some sp
       ∧ (∀ s, AStr s ∉ low_n_list perl)
       ∧ (fails_first (λ p, Decimal p ≫= round1) (low_n_list perl) e
          ∨ ∃ ps,
              mapM (λ p, Decimal p ≫= round1) (low_n_list perl) = Ok ps
              ∧ length (points_scored sp) = length ps
              ∧ (2 ≤ length ps)%nat
              ∧ RNaN ∈ ps
              ∧ e = InvalidOperation))
  ∧ (check_series_points series skip perl = Raise e →
       (ANone ∈ low_n_list perl) ∧ e = TypeError ∨ e = InvalidOperation).
Proof.
  assert (check_series_points series skip perl = Raise e ↔
     ∃ sp, skipper_points_list series skip = Some sp
       ∧ (∀ s, AStr s ∉ low_n_list perl)
       ∧ (fails_first (λ p, Decimal p ≫= round1) (low_n_list perl) e
          ∨ ∃ ps,
              mapM (λ p, Decimal p ≫= round1) (low_n_list perl) = Ok ps
              ∧ length (points_scored sp) = length ps
              ∧ (2 ≤ length ps)%nat
              ∧ RNaN ∈ ps
              ∧ e = InvalidOperation)) as Hiff.
  { unfold check_series_points.
    destruct (skipper_points_list series skip) as [sp|].
    2:{ split; [|by intros (sp & ? & _)].
        destruct (len (low_n_list perl) =? 1) eqn:Hlen; simpl; [|done].
        apply len_one in Hlen as [p ->]. simpl. by destruct (negb _). }
    destruct (existsb is_str (low_n_list perl)) eqn:Hstr.
    { split; [done|]. intros (sp' & _ & Hno & _).
      apply (proj2 (no_str_existsb _)) in Hno. congruence. }
    pose proof (proj1 (no_str_existsb _) Hstr) as Hno.
    destruct (mapM _ (low_n_list perl)) as [ps|e'] eqn:Hps;
      cbn [mbind outcome_bind].
    2:{ split.
        - intros [= <-]. exists sp. split; [done|]. split; [exact Hno|]. left.
          by apply mapM_outcome_Raise.
        - intros (sp' & _ & _ & [Hfail|(ps & ? & _)]); [|done].
          apply mapM_outcome_Raise in Hfail. congruence. }
    assert (¬ fails_first (λ p, Decimal p ≫= round1) (low_n_list perl) e)
      as Hnofail.
    { intros Hfail%mapM_outcome_Raise. congruence. }
    destruct (len (points_scored sp) =? len ps) eqn:Hlen; cbn [negb].
    2:{ split; [done|].
        intros (sp' & [= <-] & _ & [?|(ps' & [= <-] & Hl & _)]); [done|].
        assert ((len (points_scored sp) =? len ps) = true) as Hl'
          by by apply len_eqb.
        congruence. }
    apply len_eqb in Hlen.
    destruct (sorted_rounded ps) as [sorted_ps|e'] eqn:Hsorted;
      cbn [mbind outcome_bind].
    - split.
      + destruct (first_diff 0 _) as [[[i a] b]|]; [done|].
        by destruct (differs _ _).
      + intros (sp' & _ & _ & [?|(ps' & [= <-] & _ & Hl & Hnan & He)]);
          [done|].
        assert (sorted_rounded ps = Raise e) as Hr
          by by apply sorted_rounded_Raise.
        congruence.
    - apply sorted_rounded_Raise in Hsorted as (Hnan & Hl & ->). split.
      + intros [= <-]. exists sp. split; [done|]. split; [exact Hno|]. right.
        by exists ps.
      + by intros (sp' & _ & _ & [?|(ps' & _ & _ & _ & _ & ->)]). }
  split; [done|]. intros (sp & _ & _ & Hwhy)%Hiff.
  destruct Hwhy as [(pre & p & post & Hl & _ & Hp)|(? & _ & _ & _ & _ & ->)];
    [|by right].
  apply rounded_Raise in Hp as [[-> ->]| ->]; [left|by right].
  split; [|done]. rewrite Hl. apply elem_of_app. right. by left.
Qed.

Lemma series_points_raises_witness :
  check_series_points Sample.spring Sample.alice
    {| finished_races := AInt 2; low_n_list := [AInt 1; ANone];
       race := ∅; rced_races := AInt 0; rc_points := AStr "na" |}
  = Raise TypeError.
Proof.
  apply (series_points_raises Sample.spring Sample.alice).
  exists Sample.alice_points. split; [reflexivity|]. split.
  - intros s Hin. cbn [low_n_list] in Hin.
    apply elem_of_cons in Hin as [Heq|Hin]; [discriminate|].
    apply list_elem_of_singleton in Hin. discriminate.
  - left. exists [AInt 1], ANone, []. split; [reflexivity|]. split.
    + apply Forall_cons. split; [|apply Forall_nil_2].
      eexists. vm_compute. reflexivity.
    + reflexivity.
Defined.

(** X8: the RC-points check raises exactly when the kernel has RC points
    and [round(Decimal(rc_pts_perl), 1)] raises: [TypeError] for a null,
    [decimal.InvalidOperation] for a string that is not a decimal literal
    and for a value that converts to an infinity, to a signalling NaN or
    to a number whose rounding has more than 28 digits. When the kernel
    has no RC points the reference value is only compared with ["na"] and
    nothing is raised. *)
Theorem rc_points_raises (series : Series) (skip : Skipper)
    (perl : perl_skipper) (e : exn) :
  check_rc_points series skip perl = Raise e ↔
  is_Some (get_skipper_rc_points series skip)
  ∧ (rc_points perl = ANone ∧ e = TypeError
     ∨ (∃ s, rc_points perl = AStr s ∧ DecimalLit.parse s = None)
       ∧ e = InvalidOperation
     ∨ (∃ d, Decimal (rc_points perl) = Ok d ∧ unroundable d)
       ∧ e = InvalidOperation).
Proof.
  unfold check_rc_points.
  destruct (get_skipper_rc_points series skip) as [d|].
  2:{ split; [by destruct (py_ne _ _)|]. by intros ([? ?] & _). }
  destruct (Decimal (rc_points perl)) as [x|e'] eqn:Hdec;
    cbn [mbind outcome_bind].
  - destruct (round1 x) as [r|e'] eqn:Hround; cbn [mbind outcome_bind].
    + split; [by destruct (differs d r)|].
      intros (_ & [[Hnone _]|[[(s & Hs & Hparse) _]|[(x' & [= <-] & Hx) ->]]]).
      * rewrite Hnone in Hdec. discriminate.
      * rewrite Hs in Hdec. cbn [Decimal] in Hdec. by rewrite Hparse in Hdec.
      * assert (round1 x = Raise InvalidOperation) as Hr
          by by apply round1_Raise.
        congruence.
    + apply round1_Raise in Hround as [Hx ->]. split.
      * intros [= <-]. split; [by eexists|]. right. right. split; [|done].
        by exists x.
      * intros (_ & [[Hnone _]|[[_ ->]|[_ ->]]]); [|done|done].
        rewrite Hnone in Hdec. discriminate.
  - pose proof Hdec as Hwhy%Decimal_Raise. split.
    + intros [= <-]. split; [by eexists|].
      destruct Hwhy as [?|?]; [by left|right; by left].
    + intros (_ & [[Hnone ->]|[[(s & Hs & Hparse) ->]|[(x & Hx & _) _]]]).
      * rewrite Hnone in Hdec. cbn [Decimal] in Hdec. by injection Hdec as <-.
      * rewrite Hs in Hdec. cbn [Decimal] in Hdec. rewrite Hparse in Hdec.
        by injection Hdec as <-.
      * congruence.
Qed.

Lemma rc_points_raises_witness :
  check_rc_points Sample.spring Sample.bob Sample.perl_bob_na
    = Raise InvalidOperation.
Proof.
  apply (rc_points_raises Sample.spring Sample.bob Sample.perl_bob_na).
  split; [by eexists|]. right. left. split; [|reflexivity].
  exists "na". split; reflexivity.
Defined.

(** ** The order of the point lists *)

Lemma finite_values_Permutation (ps ps' : list rdec) :
  ps ≡ₚ ps' →
  match finite_values ps, finite_values ps' with
  | Some a, Some b => a ≡ₚ b
  | None, None => True
  | _, _ => False
  end.
Proof.
  unfold finite_values.
  induction 1 as [|x l k _ IH|x y l|l k m _ IH1 _ IH2]; simpl.
  - done.
  - destruct x; simpl; [|done].
    destruct (mapM _ l), (mapM _ k); simpl; try done. by constructor.
  - destruct x, y; simpl; try done; destruct (mapM _ l); simpl; try done.
    apply Permutation_swap.
  - destruct (mapM _ l), (mapM _ k), (mapM _ m); try done. by etrans.
Qed.

(** Within the precision, the check passes exactly when the rounded
    reference values are finite and the lengths and the sorted forms
    agree. *)
Lemma series_points_pass (series : Series) (skip : Skipper)
    (perl : perl_skipper) (sp : SeriesPoints) (ps : list rdec) :
  skipper_points_list series skip = Some sp →
  existsb is_str (low_n_list perl) = false →
  mapM (λ p, Decimal p ≫= round1) (low_n_list perl) = Ok ps →
  (abs_total (points_scored sp) < inject_Z (10 ^ 27))%Q →
  check_series_points series skip perl = Ok None ↔
  ∃ qs, ps = RFin <$> qs
    ∧ length (points_scored sp) = length qs
    ∧ Forall2 Qeq (sorted (points_scored sp)) (sorted qs).
Proof.
  intros Hsp Hstr Hps Hbound. unfold check_series_points.
  rewrite Hsp, Hstr, Hps. cbn [mbind outcome_bind].
  destruct (len (points_scored sp) =? len ps) eqn:Hlen; cbn [negb].
  2:{ split; [discriminate|]. intros (qs & -> & Hl & _).
      assert ((len (points_scored sp) =? len (RFin <$> qs)) = true) as Hl'.
      { apply len_eqb. by rewrite length_fmap. }
      congruence. }
  apply len_eqb in Hlen.
  destruct (sorted_rounded ps) as [sorted_ps|e] eqn:Hsorted;
    cbn [mbind outcome_bind].
  2:{ split; [discriminate|]. intros (qs & -> & _).
      rewrite sorted_rounded_finite in Hsorted. discriminate Hsorted. }
  destruct (first_diff 0 _) as [[[i a] b]|] eqn:Hdiff.
  { split; [discriminate|]. intros (qs & -> & Hl & Hall).
    rewrite sorted_rounded_finite in Hsorted. injection Hsorted as <-.
    apply (first_diff_None 0) in Hall; [congruence|].
    by rewrite !sorted_length. }
  destruct (series_points_no_diff _ _ _ Hlen Hsorted Hdiff)
    as (qs & -> & Hall).
  rewrite sum_rounded_finite. cbn [differs].
  rewrite (sums_agree _ _ Hall (rounded_list_tenths _ _ Hps) Hbound).
  cbn [negb]. split; [|done]. intros _. exists qs.
  by rewrite length_fmap in Hlen.
Qed.

Lemma finite_agreement_Permutation (l l' : list Q) (ps ps' : list rdec) :
  l ≡ₚ l' → ps ≡ₚ ps' →
  (∃ qs, ps = RFin <$> qs ∧ length l = length qs
     ∧ Forall2 Qeq (sorted l) (sorted qs)) →
  ∃ qs', ps' = RFin <$> qs' ∧ length l' = length qs'
    ∧ Forall2 Qeq (sorted l') (sorted qs').
Proof.
  intros Hl Hp (qs & -> & Hlen & Hall).
  pose proof (finite_values_Permutation _ _ Hp) as Hfin.
  rewrite finite_values_fmap in Hfin.
  destruct (finite_values ps') as [qs'|] eqn:Hfin'; [|done].
  apply finite_values_Some in Hfin' as ->. exists qs'. split; [done|].
  split.
  - by rewrite <- (Permutation_length Hl), <- (Permutation_length Hfin).
  - apply (Forall2_Qeq_trans _ (sorted l)).
    { apply sorted_Permutation_Qeq. by symmetry. }
    apply (Forall2_Qeq_trans _ (sorted qs)); [done|].
    by apply sorted_Permutation_Qeq.
Qed.

(** X9: when the absolute values of the kernel's points add up to less
    than 10 ** 27, the verdict of the series-points check does not depend
    on the order of the kernel's points or of the reference [low_n_list]:
    permuting either list leaves a pass a pass and a failure or an
    exception something else than a pass. *)
Theorem series_points_order_insensitive (series series' : Series)
    (skip : Skipper) (perl perl' : perl_skipper) (sp sp' : SeriesPoints) :
  skipper_points_list series skip = Some sp →
  skipper_points_list series' skip = Some sp' →
  points_scored sp ≡ₚ points_scored sp' →
  low_n_list perl ≡ₚ low_n_list perl' →
  (abs_total (points_scored sp) < inject_Z (10 ^ 27))%Q →
  check_series_points series skip perl = Ok None ↔
  check_series_points series' skip perl' = Ok None.
Proof.
  intros Hsp Hsp' Hk Hp Hbound.
  assert (abs_total (points_scored sp') < inject_Z (10 ^ 27))%Q as Hbound'.
  { by rewrite <- (abs_total_Permutation _ _ Hk). }
  assert (existsb is_str (low_n_list perl)
          = existsb is_str (low_n_list perl')) as Hstr.
  { apply eq_true_iff_eq. rewrite !existsb_is_str.
    split; intros [s Hs]; exists s; [by rewrite <- Hp|by rewrite Hp]. }
  destruct (existsb is_str (low_n_list perl')) eqn:Hstr'.
  { unfold check_series_points. by rewrite Hsp, Hsp', Hstr, Hstr'. }
  pose proof (mapM_outcome_Permutation (λ p, Decimal p ≫= round1) _ _ Hp)
    as Hconv.
  destruct (mapM _ (low_n_list perl)) as [ps|e] eqn:Hps,
           (mapM _ (low_n_list perl')) as [ps'|e'] eqn:Hps'; try done.
  - rewrite (series_points_pass _ _ _ _ _ Hsp Hstr Hps Hbound),
            (series_points_pass _ _ _ _ _ Hsp' Hstr' Hps' Hbound').
    split; apply finite_agreement_Permutation; done.
  - unfold check_series_points.
    rewrite Hsp, Hsp', Hstr, Hstr', Hps, Hps'. done.
Qed.

Lemma series_points_order_insensitive_witness :
  check_series_points Sample.spring Sample.alice Sample.perl_alice = Ok None ↔
  check_series_points Sample.autumn Sample.alice Sample.perl_alice_more
    = Ok None.
Proof.
  assert (abs_total (points_scored Sample.alice_points) < inject_Z (10 ^ 27))%Q
    as Hbound by (vm_compute; reflexivity).
  exact (series_points_order_insensitive Sample.spring Sample.autumn
           Sample.alice Sample.perl_alice Sample.perl_alice_more
           Sample.alice_points {| points_scored := [(5 # 2)%Q; 1%Q] |}
           eq_refl eq_refl (Permutation_swap _ _ _) (Permutation_swap _ _ _)
           Hbound).
Defined.

(** ** The races the per-race check looks at *)

Lemma race_loop_keys (i : nat) (rs : list Race) (skip : Skipper)
    (perl perl' : perl_skipper) :
  (∀ j, (j < length rs)%nat →
        race perl !! (Z.of_nat (i + j) + 1) = race perl' !! (Z.of_nat (i + j) + 1)) →
  race_loop i rs skip perl = race_loop i rs skip perl'.
Proof.
  revert i. induction rs as [|r rs IH]; intros i Hkeys; [done|].
  rewrite !race_loop_cons.
  assert (race_pts_perl perl i = race_pts_perl perl' i) as ->.
  { unfold race_pts_perl. specialize (Hkeys 0%nat). rewrite Nat.add_0_r in Hkeys.
    rewrite Hkeys; [done|simpl; lia]. }
  rewrite (IH (S i)); [done|].
  intros j Hj. replace (S i + j)%nat with (i + S j)%nat by lia.
  apply Hkeys. simpl. lia.
Qed.

(** X10: the per-race check reads the reference [race] mapping at the keys
    1 to the number of races of the series only. Two reference records
    that agree on those keys get the same result: entries under other
    keys, such as races the series does not have, are never compared and
    cannot make the check fail. *)
Theorem race_results_keys (series : Series) (skip : Skipper)
    (perl perl' : perl_skipper) :
  (∀ k, 1 ≤ k ≤ Z.of_nat (length (races series)) →
        race perl !! k = race perl' !! k) →
  check_race_results series skip perl = check_race_results series skip perl'.
Proof.
  intros Hkeys. unfold check_race_results. f_equal.
  apply race_loop_keys. intros j Hj. apply Hkeys. lia.
Qed.

Lemma race_results_keys_witness :
  check_race_results Sample.spring Sample.alice Sample.perl_alice
  = check_race_results Sample.spring Sample.alice Sample.perl_alice_more.
Proof.
  apply (race_results_keys Sample.spring Sample.alice Sample.perl_alice
           Sample.perl_alice_more).
  intros k Hk. simpl in Hk.
  assert (k = 1 ∨ k = 2) as [-> | ->] by lia; reflexivity.
Defined.
